(** * Partition scheme headers of the catalog (catalog/PartitionSchemeHeader.hpp)

    A shallow embedding of [PartitionSchemeHeader] and of its two final
    subclasses, [HashPartitionSchemeHeader] and [RangePartitionSchemeHeader],
    followed by the properties of [getPartitionId], [lessThan] and of the
    range constructor.

    Conventions.
    - [std::size_t], [partition_id]: an integer in [0, 2^64), kept as [Z] with
      the wrap-around of unsigned arithmetic written out ([SizeT.wrap]).
    - [std::vector<T>]: [list T]; [v[i]] is [vec_at v i], which faults when
      [i] is not a position of [v].
    - A function that can abort ([CHECK], [DCHECK]) or read outside a vector
      returns a [result].  [getPartitionId] additionally reports the
      positions of [partition_range_boundaries_] it has read, in order. *)

From Stdlib Require Import ZArith List Bool Lia.
Import ListNotations.
Local Open Scope Z_scope.

(** ** Unsigned 64-bit arithmetic *)

Module SizeT.
Definition modulus : Z := 2 ^ 64.
Definition wrap (z : Z) : Z := z mod modulus.
Definition add (a b : Z) : Z := wrap (a + b).
Definition sub (a b : Z) : Z := wrap (a - b).
Definition shr (a n : Z) : Z := Z.shiftr a n.
Definition fits (z : Z) : Prop := 0 <= z < modulus.
End SizeT.

(** ** Failures and results *)

Inductive fault : Type :=
| CheckFailed       (* a CHECK, or a DCHECK in a build that has them, failed *)
| OutOfRange        (* operator[] outside the vector *)
| DivisionByZero    (* x % 0 *)
| OutOfFuel.        (* the bound given to a while loop was used up *)

Inductive result (A : Type) : Type :=
| Ret (a : A)
| Fault (f : fault).
Arguments Ret {A} a.
Arguments Fault {A} f.

Definition rbind {A B : Type} (r : result A) (k : A -> result B) : result B :=
  match r with
  | Ret a => k a
  | Fault f => Fault f
  end.

(** A computation that also lists the boundary positions it reads. *)
Definition M (A : Type) : Type := (list Z * result A)%type.

Definition mret {A : Type} (a : A) : M A := ([], Ret a).
Definition lift {A : Type} (r : result A) : M A := ([], r).
Definition mbind {A B : Type} (m : M A) (k : A -> M B) : M B :=
  match m with
  | (t, Ret a) => let (t', r) := k a in (t ++ t', r)
  | (t, Fault f) => (t, Fault f)
  end.

Declare Scope result_scope.
Delimit Scope result_scope with result.
Notation "x <- r ;; k" := (rbind r (fun x => k))
  (at level 61, r at next level, right associativity) : result_scope.
Notation "x <~ m ;; k" := (mbind m (fun x => k))
  (at level 61, m at next level, right associativity) : result_scope.
Local Open Scope result_scope.

(** ** Vectors *)

Definition size {A : Type} (v : list A) : Z := Z.of_nat (length v).

Definition vec_at {A : Type} (v : list A) (i : Z) : result A :=
  if (0 <=? i) && (i <? size v) then
    match nth_error v (Z.to_nat i) with
    | Some x => Ret x
    | None => Fault OutOfRange
    end
  else Fault OutOfRange.

(** ** What the header includes but this unit does not define

    [TypedValue], [Type], the comparators that
    [LessComparison::Instance()] and [EqualComparison::Instance()] build for
    a type, [HashCompositeKey], and the two build switches: whether glog's
    [DCHECK]s are compiled in, and [QUICKSTEP_DEBUG]. *)

Class Platform : Type := {
  TypedValue : Type;
  TypeRef : Type;
  makeLess : TypeRef -> TypedValue -> TypedValue -> bool;
  makeEqual : TypeRef -> TypedValue -> TypedValue -> bool;
  HashCompositeKey : list TypedValue -> Z;
  DCHECK_IS_ON : bool;
  QUICKSTEP_DEBUG : bool
}.

Definition CHECK (c : bool) : result unit :=
  if c then Ret tt else Fault CheckFailed.

Definition DCHECK `{Platform} (c : bool) : result unit :=
  if DCHECK_IS_ON then CHECK c else Ret tt.

(** ** The classes *)

(** Modelled from the spec: "attribute identifiers (opaque small integers)"
    and "partition id: a non-negative integer less than the partition
    count".  The typedefs are in catalog/CatalogTypedefs.hpp, which is not
    part of this unit; [partition_id] is taken to be [std::size_t], the type
    of [num_partitions_] and of [size()], with which [getPartitionId] mixes
    it. *)
Definition attribute_id : Type := Z.
Definition partition_id : Type := Z.

Inductive PartitionType : Type := kHash | kRange.

Section Classes.
Context `{PF : Platform}.

Definition PartitionAttributeIds : Type := list attribute_id.
Definition PartitionValues : Type := list TypedValue.
Definition UncheckedComparator : Type := TypedValue -> TypedValue -> bool.

(** The members of the base class. *)
Record Base : Type := mkBase {
  partition_type_ : PartitionType;
  num_partitions_ : Z;
  partition_attribute_ids_ : PartitionAttributeIds
}.

Record HashPartitionSchemeHeader : Type := mkHash {
  hash_base : Base
}.

Record RangePartitionSchemeHeader : Type := mkRange {
  range_base : Base;
  partition_attr_types_ : list TypeRef;
  partition_range_boundaries_ : list PartitionValues;
  less_unchecked_comparators_ : list UncheckedComparator;
  equal_unchecked_comparators_ : list UncheckedComparator
}.

(** A [PartitionSchemeHeader*] points to one of the two final classes. *)
Inductive PartitionSchemeHeader : Type :=
| Hash (h : HashPartitionSchemeHeader)
| Range (r : RangePartitionSchemeHeader).

Definition base_of (d : PartitionSchemeHeader) : Base :=
  match d with
  | Hash h => hash_base h
  | Range r => range_base r
  end.

Definition getPartitionType (d : PartitionSchemeHeader) : PartitionType :=
  partition_type_ (base_of d).
Definition getNumPartitions (d : PartitionSchemeHeader) : Z :=
  num_partitions_ (base_of d).
Definition getPartitionAttributeIds (d : PartitionSchemeHeader)
  : PartitionAttributeIds :=
  partition_attribute_ids_ (base_of d).

(** *** HashPartitionSchemeHeader *)

Definition newHashPartitionSchemeHeader
    (num_partitions : Z) (attributes : PartitionAttributeIds)
  : HashPartitionSchemeHeader :=
  mkHash (mkBase kHash num_partitions attributes).

Definition Hash_getPartitionId
    (h : HashPartitionSchemeHeader) (value_of_attributes : PartitionValues)
  : M partition_id :=
  let b := hash_base h in
  _ <~ lift (DCHECK (size (partition_attribute_ids_ b)
                     =? size value_of_attributes)) ;;
  if num_partitions_ b =? 0 then lift (Fault DivisionByZero)
  else mret (HashCompositeKey value_of_attributes mod num_partitions_ b).

(** *** RangePartitionSchemeHeader::lessThan *)

(** The [for] loop over [attr_index]; [indices] are the values that
    [attr_index] still has to take.  Leaving the loop, by [break] or by
    its condition, reaches the final [return true]. *)
Fixpoint lessThan_loop (r : RangePartitionSchemeHeader)
    (lhs rhs : PartitionValues) (indices : list nat) : result bool :=
  match indices with
  | [] => Ret true
  | attr_index :: rest =>
      let i := Z.of_nat attr_index in
      less <- vec_at (less_unchecked_comparators_ r) i ;;
      l <- vec_at lhs i ;;
      rv <- vec_at rhs i ;;
      if less l rv then Ret true
      else
        equal <- vec_at (equal_unchecked_comparators_ r) i ;;
        if equal l rv then
          if i =? SizeT.sub (size (partition_attribute_ids_ (range_base r))) 1
          then Ret false
          else lessThan_loop r lhs rhs rest
        else Ret false
  end.

Definition lessThan (r : RangePartitionSchemeHeader)
    (lhs rhs : PartitionValues) : result bool :=
  let ids := partition_attribute_ids_ (range_base r) in
  _ <- DCHECK (size ids =? size lhs) ;;
  _ <- DCHECK (size ids =? size rhs) ;;
  lessThan_loop r lhs rhs (seq 0 (length ids)).

(** *** RangePartitionSchemeHeader::checkPartitionRangeBoundaries *)

Fixpoint check_boundary_sizes (r : RangePartitionSchemeHeader)
    (boundaries : list PartitionValues) : result unit :=
  match boundaries with
  | [] => Ret tt
  | partition_range_boundary :: rest =>
      _ <- CHECK (size (partition_attribute_ids_ (range_base r))
                  =? size partition_range_boundary) ;;
      check_boundary_sizes r rest
  end.

(** The second loop; [part_ids] are the values [part_id] still takes. *)
Fixpoint check_ascending (r : RangePartitionSchemeHeader)
    (part_ids : list nat) : result unit :=
  match part_ids with
  | [] => Ret tt
  | part_id :: rest =>
      let i := Z.of_nat part_id in
      prev <- vec_at (partition_range_boundaries_ r) (i - 1) ;;
      cur <- vec_at (partition_range_boundaries_ r) i ;;
      lt <- lessThan r prev cur ;;
      _ <- CHECK lt ;;
      check_ascending r rest
  end.

Definition checkPartitionRangeBoundaries (r : RangePartitionSchemeHeader)
  : result unit :=
  _ <- check_boundary_sizes r (partition_range_boundaries_ r) ;;
  check_ascending r (seq 1 (length (partition_range_boundaries_ r) - 1)).

(** *** The constructor *)

Definition newRangePartitionSchemeHeader
    (num_partitions : Z) (attributes : PartitionAttributeIds)
    (partition_attribute_types : list TypeRef)
    (partition_ranges : list PartitionValues)
  : result RangePartitionSchemeHeader :=
  _ <- DCHECK (size attributes =? size partition_attribute_types) ;;
  _ <- DCHECK (SizeT.sub num_partitions 1 =? size partition_ranges) ;;
  let this :=
    mkRange (mkBase kRange num_partitions attributes)
            partition_attribute_types
            partition_ranges
            (map makeLess partition_attribute_types)
            (map makeEqual partition_attribute_types) in
  if QUICKSTEP_DEBUG then
    _ <- checkPartitionRangeBoundaries this ;;
    Ret this
  else Ret this.

(** *** RangePartitionSchemeHeader::getPartitionId *)

(** [lessThan(value_of_attributes, partition_range_boundaries_[i])]. *)
Definition probe (r : RangePartitionSchemeHeader)
    (value_of_attributes : PartitionValues) (i : Z) : M bool :=
  ([i], b <- vec_at (partition_range_boundaries_ r) i ;;
        lessThan r value_of_attributes b).

(** One turn of the [while] loop: the new [start] and [end]. *)
Definition loop_body (r : RangePartitionSchemeHeader)
    (value_of_attributes : PartitionValues) (start end_ : Z) : M (Z * Z) :=
  let mid := SizeT.add start (SizeT.shr (SizeT.sub end_ start) 1) in
  lt <~ probe r value_of_attributes mid ;;
  if (lt : bool) then mret (start, mid)
  else mret (SizeT.add mid 1, end_).

Fixpoint while_loop (fuel : nat) (r : RangePartitionSchemeHeader)
    (value_of_attributes : PartitionValues) (start end_ : Z)
  : M partition_id :=
  if start <? end_ then
    match fuel with
    | O => lift (Fault OutOfFuel)
    | S fuel' =>
        st <~ loop_body r value_of_attributes start end_ ;;
        while_loop fuel' r value_of_attributes (fst st) (snd st)
    end
  else mret start.

Definition Range_getPartitionId_fuel (fuel : nat)
    (r : RangePartitionSchemeHeader) (value_of_attributes : PartitionValues)
  : M partition_id :=
  let b := range_base r in
  _ <~ lift (DCHECK (size (partition_attribute_ids_ b)
                     =? size value_of_attributes)) ;;
  let start := 0 in
  let end_ := SizeT.sub (size (partition_range_boundaries_ r)) 1 in
  lt <~ probe r value_of_attributes end_ ;;
  if negb lt then mret (SizeT.sub (num_partitions_ b) 1)
  else while_loop fuel r value_of_attributes start end_.

(** The loop halves [end - start], so as many turns as there are
    boundaries are more than it can take (see [while_loop_runs]). *)
Definition Range_getPartitionId
    (r : RangePartitionSchemeHeader) (value_of_attributes : PartitionValues)
  : M partition_id :=
  Range_getPartitionId_fuel (length (partition_range_boundaries_ r))
                            r value_of_attributes.

(** *** The virtual call *)

Definition getPartitionId (d : PartitionSchemeHeader)
    (value_of_attributes : PartitionValues) : M partition_id :=
  match d with
  | Hash h => Hash_getPartitionId h value_of_attributes
  | Range r => Range_getPartitionId r value_of_attributes
  end.

End Classes.

(** ** Specification vocabulary *)

Section Vocabulary.
Context `{PF : Platform}.

(** The comparator provider is consistent: for every type, equality is
    transitive, less-than is transitive, no two values are both equal and
    ordered, and less-than respects equality on both sides. *)
Class ConsistentComparators : Prop := {
  equal_not_less : forall t a b,
    makeEqual t a b = true -> makeLess t a b = false;
  equal_trans : forall t a b c,
    makeEqual t a b = true -> makeEqual t b c = true ->
    makeEqual t a c = true;
  less_trans : forall t a b c,
    makeLess t a b = true -> makeLess t b c = true -> makeLess t a c = true;
  equal_less : forall t a b c,
    makeEqual t a b = true -> makeLess t b c = true -> makeLess t a c = true;
  less_equal : forall t a b c,
    makeLess t a b = true -> makeEqual t b c = true -> makeLess t a c = true
}.

(** What the constructor leaves in a range header, apart from the order of
    the boundaries: sizes that fit [std::size_t], one type and one pair of
    comparators per partitioning attribute, [num_partitions - 1] boundaries,
    each with one value per partitioning attribute. *)
Record range_wf (r : RangePartitionSchemeHeader) : Prop := {
  wf_ids_fit : SizeT.fits (size (partition_attribute_ids_ (range_base r)));
  wf_types :
    size (partition_attr_types_ r)
    = size (partition_attribute_ids_ (range_base r));
  wf_less :
    less_unchecked_comparators_ r = map makeLess (partition_attr_types_ r);
  wf_equal :
    equal_unchecked_comparators_ r = map makeEqual (partition_attr_types_ r);
  wf_num_fit : SizeT.fits (num_partitions_ (range_base r));
  wf_count :
    size (partition_range_boundaries_ r)
    = SizeT.sub (num_partitions_ (range_base r)) 1;
  wf_sizes :
    Forall (fun b => size b = size (partition_attribute_ids_ (range_base r)))
           (partition_range_boundaries_ r)
}.

(** Every boundary has one value per partitioning attribute. *)
Definition sizes_match (ids : PartitionAttributeIds)
    (boundaries : list PartitionValues) : Prop :=
  Forall (fun b => size b = size ids) boundaries.

(** Each boundary is [lessThan] the next one. *)
Definition ascending (r : RangePartitionSchemeHeader) : Prop :=
  forall (j : nat) (b1 b2 : PartitionValues),
    nth_error (partition_range_boundaries_ r) j = Some b1 ->
    nth_error (partition_range_boundaries_ r) (S j) = Some b2 ->
    lessThan r b1 b2 = Ret true.

(** [values] is [lessThan] boundary [j]; [values] is not. *)
Definition below (r : RangePartitionSchemeHeader)
    (values : PartitionValues) (j : Z) : Prop :=
  exists b, vec_at (partition_range_boundaries_ r) j = Ret b /\
            lessThan r values b = Ret true.

Definition not_below (r : RangePartitionSchemeHeader)
    (values : PartitionValues) (j : Z) : Prop :=
  exists b, vec_at (partition_range_boundaries_ r) j = Ret b /\
            lessThan r values b = Ret false.

(** The comparison of two tuples written by recursion on the tuples, in
    the order in which [lessThan] asks its comparators. *)
Fixpoint lex (tys : list TypeRef) (lhs rhs : PartitionValues) : bool :=
  match tys, lhs, rhs with
  | ty :: tys', l :: lhs', rv :: rhs' =>
      if makeLess ty l rv then true
      else if makeEqual ty l rv then lex tys' lhs' rhs'
      else false
  | _, _, _ => false
  end.

(** The two tuples agree at every position, by the equality comparators. *)
Fixpoint all_equal (tys : list TypeRef) (lhs rhs : PartitionValues) : bool :=
  match tys, lhs, rhs with
  | ty :: tys', l :: lhs', rv :: rhs' =>
      makeEqual ty l rv && all_equal tys' lhs' rhs'
  | [], [], [] => true
  | _, _, _ => false
  end.

(** Position [i] of two tuples, seen through a vector of comparators. *)
Definition holds_at (cmps : list UncheckedComparator)
    (lhs rhs : PartitionValues) (i : nat) : bool :=
  match nth_error cmps i, nth_error lhs i, nth_error rhs i with
  | Some c, Some l, Some rv => c l rv
  | _, _, _ => false
  end.

(** [i] is the first position at which the tuples are not equal. *)
Definition first_difference (r : RangePartitionSchemeHeader)
    (lhs rhs : PartitionValues) (i : nat) : Prop :=
  (i < length (partition_attribute_ids_ (range_base r)))%nat /\
  (forall j, (j < i)%nat ->
     holds_at (equal_unchecked_comparators_ r) lhs rhs j = true) /\
  holds_at (equal_unchecked_comparators_ r) lhs rhs i = false.

End Vocabulary.

Arguments ConsistentComparators PF : clear implicits.

(** ** Serialization

    [getProto], [ProtoIsValid] and [ReconstructFromProto] are declared in the
    header and defined in PartitionSchemeHeader.cpp, and the message type in
    Catalog.proto; neither file is part of this unit. *)

Section Serialization.
Context `{PF : Platform}.

(** Modelled from the spec: [serialization::PartitionSchemeHeader], "a
    record with fields {strategyTag, partitionCount, attributeIds[], and,
    only for Range, attributeTypes[], boundaries[][]}".  The encoding of
    values and types inside the message is left opaque. *)
Record Proto : Type := mkProto {
  proto_partition_type : PartitionType;
  proto_num_partitions : Z;
  proto_partition_attribute_ids : PartitionAttributeIds;
  proto_partition_attr_types : list TypeRef;
  proto_partition_range_boundaries : list PartitionValues
}.

(** Modelled from the spec: [getProto], which "produces a self-describing
    representation carrying the strategy tag, partition count, attribute
    ids, and strategy-specific payload (boundaries + types for Range)". *)
Definition getProto (d : PartitionSchemeHeader) : Proto :=
  match d with
  | Hash h =>
      let b := hash_base h in
      mkProto (partition_type_ b) (num_partitions_ b)
              (partition_attribute_ids_ b) [] []
  | Range r =>
      let b := range_base r in
      mkProto (partition_type_ b) (num_partitions_ b)
              (partition_attribute_ids_ b)
              (partition_attr_types_ r) (partition_range_boundaries_ r)
  end.

(** Modelled from the spec: [ProtoIsValid] checks that the "partition
    count >= 1; attribute-id list non-empty; for Range, attribute-type list
    length equals attribute-id list length, boundary-tuple count equals
    partitionCount - 1, every boundary tuple's length equals the attribute
    count".  The tag is one of the known variants by its type; the check
    of the order of the boundaries, which the spec calls optional, is left
    to the constructor. *)
Definition ProtoIsValid (proto : Proto) : bool :=
  (1 <=? proto_num_partitions proto)
  && negb (size (proto_partition_attribute_ids proto) =? 0)
  && match proto_partition_type proto with
     | kHash => true
     | kRange =>
         (size (proto_partition_attr_types proto)
          =? size (proto_partition_attribute_ids proto))
         && (size (proto_partition_range_boundaries proto)
             =? proto_num_partitions proto - 1)
         && forallb (fun b => size b
                              =? size (proto_partition_attribute_ids proto))
                    (proto_partition_range_boundaries proto)
     end.

(** Modelled from the spec: [ReconstructFromProto] "validates proto is
    well-formed and reconstructs the concrete strategy", and "asserts
    validity as a fatal precondition". *)
Definition ReconstructFromProto (proto : Proto)
  : result PartitionSchemeHeader :=
  _ <- CHECK (ProtoIsValid proto) ;;
  match proto_partition_type proto with
  | kHash =>
      Ret (Hash (newHashPartitionSchemeHeader
                   (proto_num_partitions proto)
                   (proto_partition_attribute_ids proto)))
  | kRange =>
      r <- newRangePartitionSchemeHeader
             (proto_num_partitions proto)
             (proto_partition_attribute_ids proto)
             (proto_partition_attr_types proto)
             (proto_partition_range_boundaries proto) ;;
      Ret (Range r)
  end.

(** The descriptors of the data model: a tag that matches the class, at
    least one partition, at least one partitioning attribute, and, for a
    range header, the state the validating constructor leaves. *)
Definition valid_descriptor (d : PartitionSchemeHeader) : Prop :=
  1 <= getNumPartitions d /\
  getPartitionAttributeIds d <> [] /\
  match d with
  | Hash h => partition_type_ (hash_base h) = kHash
  | Range r =>
      partition_type_ (range_base r) = kRange /\ range_wf r /\ ascending r
  end.

End Serialization.

(** ** Integer attributes: a platform to run the code on *)

Definition IntPlatform (dchecks debug : bool) : Platform := {|
  TypedValue := Z;
  TypeRef := unit;
  makeLess := fun _ => Z.ltb;
  makeEqual := fun _ => Z.eqb;
  HashCompositeKey := fun vs => fold_left (fun h v => SizeT.wrap (2 * h + v)) vs 8;
  DCHECK_IS_ON := dchecks;
  QUICKSTEP_DEBUG := debug
|}.

(** A debug build. *)
Definition DebugInt : Platform := IntPlatform true true.

(** Three partitions on one integer attribute, boundaries [10] and [20]. *)
Definition three_ranges : @RangePartitionSchemeHeader DebugInt :=
  mkRange (PF := DebugInt) (mkBase kRange 3 [0]) [tt] [[10]; [20]]
          (map (@makeLess DebugInt) [tt]) (map (@makeEqual DebugInt) [tt]).

(** One partition on one integer attribute: no boundary. *)
Definition single_range : @RangePartitionSchemeHeader DebugInt :=
  mkRange (PF := DebugInt) (mkBase kRange 1 [0]) [tt] []
          (map (@makeLess DebugInt) [tt]) (map (@makeEqual DebugInt) [tt]).

(** Four hash partitions on one integer attribute. *)
Definition four_hashes : HashPartitionSchemeHeader :=
  newHashPartitionSchemeHeader 4 [0].

(** ** Further vocabulary *)

Section MoreVocabulary.
Context `{PF : Platform}.

(** [RangePartitionSchemeHeader::getPartitionRangeBoundaries]. *)
Definition getPartitionRangeBoundaries (r : RangePartitionSchemeHeader)
  : list PartitionValues :=
  partition_range_boundaries_ r.

(** The equality comparators are reflexive and symmetric. *)
Class EquivalenceComparators : Prop := {
  equal_refl : forall t a, makeEqual t a a = true;
  equal_sym : forall t a b, makeEqual t a b = true -> makeEqual t b a = true
}.

(** The scan that the binary search stands for: the position of the first
    boundary that [values] is [lessThan], or the number of boundaries when
    there is none. *)
Fixpoint first_below (r : RangePartitionSchemeHeader)
    (values : PartitionValues) (boundaries : list PartitionValues) : nat :=
  match boundaries with
  | [] => 0%nat
  | b :: rest =>
      match lessThan r values b with
      | Ret true => 0%nat
      | _ => S (first_below r values rest)
      end
  end.

(** The descriptors on which [getPartitionId] is specified: a hash header
    with at least one partition, or a well-formed range header with at least
    two. *)
Definition searchable (d : PartitionSchemeHeader) : Prop :=
  match d with
  | Hash h => 1 <= num_partitions_ (hash_base h)
  | Range r => range_wf r /\ 2 <= num_partitions_ (range_base r)
  end.

End MoreVocabulary.

Arguments EquivalenceComparators PF : clear implicits.

(** Four partitions on one integer attribute, boundaries [10], [20], [30]. *)
Definition four_ranges : @RangePartitionSchemeHeader DebugInt :=
  mkRange (PF := DebugInt) (mkBase kRange 4 [0]) [tt] [[10]; [20]; [30]]
          (map (@makeLess DebugInt) [tt]) (map (@makeEqual DebugInt) [tt]).

(** Two partitions on no attribute at all: one boundary, the empty tuple. *)
Definition no_attribute_range : @RangePartitionSchemeHeader DebugInt :=
  mkRange (PF := DebugInt) (mkBase kRange 2 []) [] [[]] [] [].

(** The runs of [while (start < end) { ... }] in [getPartitionId], turn by
    turn of [loop_body]: [loop_run r values start end t start' end'] says
    that the loop entered with [start] and [end] reads the boundaries at
    positions [t] and leaves with [start'] and [end']. *)
Inductive loop_run `{PF : Platform} (r : RangePartitionSchemeHeader)
    (values : PartitionValues) : Z -> Z -> list Z -> Z -> Z -> Prop :=
| loop_leaves (start end_ : Z) :
    ~ start < end_ ->
    loop_run r values start end_ [] start end_
| loop_turns (start end_ start1 end1 start' end' : Z) (t1 t2 : list Z) :
    start < end_ ->
    loop_body r values start end_ = (t1, Ret (start1, end1)) ->
    loop_run r values start1 end1 t2 start' end' ->
    loop_run r values start end_ (t1 ++ t2) start' end'.

(** A platform whose comparators look at the first component of a value
    only: two values that differ in the second one are equal for them. *)
Definition KeyedPlatform : Platform := {|
  TypedValue := (Z * Z)%type;
  TypeRef := unit;
  makeLess := fun _ a b => fst a <? fst b;
  makeEqual := fun _ a b => fst a =? fst b;
  HashCompositeKey :=
    fun vs => fold_left (fun h v => SizeT.wrap (2 * h + fst v)) vs 8;
  DCHECK_IS_ON := true;
  QUICKSTEP_DEBUG := true
|}.

(** Three partitions on one such attribute, boundaries at 10 and 20. *)
Definition keyed_ranges : @RangePartitionSchemeHeader KeyedPlatform :=
  mkRange (PF := KeyedPlatform) (mkBase kRange 3 [0]) [tt]
          [[(10, 0)]; [(20, 0)]]
          (map (@makeLess KeyedPlatform) [tt])
          (map (@makeEqual KeyedPlatform) [tt]).

(** ** Basic facts *)

Lemma wrap_small (z : Z) : SizeT.fits z -> SizeT.wrap z = z.
Proof. unfold SizeT.fits, SizeT.wrap. intros. now apply Z.mod_small. Qed.

Lemma wrap_fits (z : Z) : SizeT.fits (SizeT.wrap z).
Proof.
  unfold SizeT.fits, SizeT.wrap. apply Z.mod_pos_bound. reflexivity.
Qed.

Lemma vec_at_nth {A : Type} (v : list A) (n : nat) (x : A) :
  nth_error v n = Some x -> vec_at v (Z.of_nat n) = Ret x.
Proof.
  intros E. unfold vec_at, size.
  assert (n < length v)%nat by (apply nth_error_Some; congruence).
  replace (0 <=? Z.of_nat n) with true by (symmetry; apply Z.leb_le; lia).
  replace (Z.of_nat n <? Z.of_nat (length v)) with true
    by (symmetry; apply Z.ltb_lt; lia).
  simpl. now rewrite Nat2Z.id, E.
Qed.

Lemma vec_at_inv {A : Type} (v : list A) (i : Z) (x : A) :
  vec_at v i = Ret x ->
  0 <= i < size v /\ nth_error v (Z.to_nat i) = Some x.
Proof.
  unfold vec_at. destruct (0 <=? i) eqn:E1; [|discriminate].
  destruct (i <? size v) eqn:E2; [|discriminate]. simpl.
  destruct (nth_error v (Z.to_nat i)) eqn:E3; [|discriminate].
  intros [= ->]. apply Z.leb_le in E1. apply Z.ltb_lt in E2. auto.
Qed.

Lemma vec_at_in_range {A : Type} (v : list A) (i : Z) :
  0 <= i < size v -> exists x, vec_at v i = Ret x.
Proof.
  intros Hi. unfold size in Hi.
  destruct (nth_error v (Z.to_nat i)) eqn:E.
  - exists a. rewrite <- (Z2Nat.id i) by lia. now apply vec_at_nth.
  - apply nth_error_None in E. lia.
Qed.

Lemma vec_at_out_of_range {A : Type} (v : list A) (i : Z) :
  ~ (0 <= i < size v) -> vec_at v i = Fault OutOfRange.
Proof.
  intros Hi. unfold vec_at.
  destruct (0 <=? i) eqn:E1; [|reflexivity].
  destruct (i <? size v) eqn:E2; [|reflexivity].
  apply Z.leb_le in E1. apply Z.ltb_lt in E2. lia.
Qed.

Lemma skipn_nth_error {A : Type} (v : list A) (n : nat) (x : A) :
  nth_error v n = Some x -> skipn n v = x :: skipn (S n) v.
Proof.
  revert v. induction n as [|n IH]; intros [|y v] E; try discriminate.
  - now injection E as ->.
  - simpl in E. now apply IH.
Qed.

(** ** [lessThan] on a well-formed header *)

Section LessThanFacts.
Context `{PF : Platform}.
Variable r : RangePartitionSchemeHeader.
Hypothesis WF : range_wf r.

Let ids := partition_attribute_ids_ (range_base r).
Let tys := partition_attr_types_ r.

Lemma wf_types_length : length tys = length ids.
Proof. apply Nat2Z.inj. exact (wf_types r WF). Qed.

Lemma DCHECK_same_size (lhs : PartitionValues) :
  size lhs = size ids -> DCHECK (size ids =? size lhs) = Ret tt.
Proof.
  intros ->. unfold DCHECK, CHECK. rewrite Z.eqb_refl.
  now destruct DCHECK_IS_ON.
Qed.

Lemma last_index : (1 <= length ids)%nat ->
  SizeT.sub (size ids) 1 = Z.of_nat (length ids) - 1.
Proof.
  intros Hk. unfold SizeT.sub. apply wrap_small.
  pose proof (wf_ids_fit r WF) as F. fold ids in F.
  unfold SizeT.fits, size in *. lia.
Qed.

Lemma less_comparator_at (i : nat) (ty : TypeRef) :
  nth_error tys i = Some ty ->
  vec_at (less_unchecked_comparators_ r) (Z.of_nat i) = Ret (makeLess ty).
Proof.
  intros E. rewrite (wf_less r WF). now apply vec_at_nth, map_nth_error.
Qed.

Lemma equal_comparator_at (i : nat) (ty : TypeRef) :
  nth_error tys i = Some ty ->
  vec_at (equal_unchecked_comparators_ r) (Z.of_nat i) = Ret (makeEqual ty).
Proof.
  intros E. rewrite (wf_equal r WF). now apply vec_at_nth, map_nth_error.
Qed.

Lemma lessThan_loop_lex (lhs rhs : PartitionValues) :
  length lhs = length ids -> length rhs = length ids ->
  forall n i, (i + n = length ids)%nat -> (1 <= n)%nat ->
    lessThan_loop r lhs rhs (seq i n)
    = Ret (lex (skipn i tys) (skipn i lhs) (skipn i rhs)).
Proof.
  intros Hl Hr. pose proof wf_types_length as Ht.
  induction n as [|n IH]; intros i Hi Hn; [lia|].
  destruct (nth_error tys i) as [ty|] eqn:Ety;
    [|apply nth_error_None in Ety; lia].
  destruct (nth_error lhs i) as [l|] eqn:El;
    [|apply nth_error_None in El; lia].
  destruct (nth_error rhs i) as [rv|] eqn:Er;
    [|apply nth_error_None in Er; lia].
  rewrite (skipn_nth_error _ _ _ Ety), (skipn_nth_error _ _ _ El),
    (skipn_nth_error _ _ _ Er).
  cbn [seq lessThan_loop lex].
  rewrite (less_comparator_at _ _ Ety).
  rewrite (vec_at_nth _ _ _ El), (vec_at_nth _ _ _ Er).
  cbn [rbind].
  destruct (makeLess ty l rv); [reflexivity|].
  rewrite (equal_comparator_at _ _ Ety).
  cbn [rbind].
  destruct (makeEqual ty l rv); [|reflexivity].
  fold ids. rewrite last_index by lia.
  destruct n as [|n].
  - replace (Z.of_nat i =? Z.of_nat (length ids) - 1) with true
      by (symmetry; apply Z.eqb_eq; lia).
    replace (S i) with (length tys) by lia.
    now rewrite skipn_all.
  - replace (Z.of_nat i =? Z.of_nat (length ids) - 1) with false
      by (symmetry; apply Z.eqb_neq; lia).
    apply IH; lia.
Qed.

(** With at least one partitioning attribute, [lessThan] is [lex]. *)
Lemma lessThan_lex (lhs rhs : PartitionValues) :
  size lhs = size ids -> size rhs = size ids -> (1 <= length ids)%nat ->
  lessThan r lhs rhs = Ret (lex tys lhs rhs).
Proof.
  intros Hl Hr Hk. unfold lessThan. fold ids.
  rewrite (DCHECK_same_size _ Hl), (DCHECK_same_size _ Hr). cbn [rbind].
  unfold size in Hl, Hr.
  rewrite (lessThan_loop_lex lhs rhs) by lia. reflexivity.
Qed.

(** With none, the loop is not entered and the answer is [true]. *)
Lemma lessThan_no_attribute (lhs rhs : PartitionValues) :
  size lhs = size ids -> size rhs = size ids -> length ids = 0%nat ->
  lessThan r lhs rhs = Ret true.
Proof.
  intros Hl Hr Hk. unfold lessThan. fold ids.
  rewrite (DCHECK_same_size _ Hl), (DCHECK_same_size _ Hr). cbn [rbind].
  now rewrite Hk.
Qed.

Lemma lessThan_total (lhs rhs : PartitionValues) :
  size lhs = size ids -> size rhs = size ids ->
  exists b, lessThan r lhs rhs = Ret b.
Proof.
  intros Hl Hr. destruct (length ids) eqn:Hk.
  - exists true. now apply lessThan_no_attribute.
  - eexists. apply lessThan_lex; auto. lia.
Qed.

Context {CC : ConsistentComparators PF}.

Lemma lex_trans (ts : list TypeRef) : forall a b c : PartitionValues,
  lex ts a b = true -> lex ts b c = true -> lex ts a c = true.
Proof.
  induction ts as [|t ts IH]; intros [|x a] [|y b] [|z c];
    cbn [lex]; try discriminate.
  destruct (makeLess t x y) eqn:Lxy, (makeLess t y z) eqn:Lyz.
  - intros _ _. now rewrite (less_trans t x y z Lxy Lyz).
  - destruct (makeEqual t y z) eqn:Eyz; [|discriminate].
    intros _ _. now rewrite (less_equal t x y z Lxy Eyz).
  - destruct (makeEqual t x y) eqn:Exy; [|discriminate].
    intros _ _. now rewrite (equal_less t x y z Exy Lyz).
  - destruct (makeEqual t x y) eqn:Exy; [|discriminate].
    destruct (makeEqual t y z) eqn:Eyz; [|discriminate].
    intros Hab Hbc. destruct (makeLess t x z); [reflexivity|].
    rewrite (equal_trans t x y z Exy Eyz). eauto.
Qed.

Lemma lex_equal_left (ts : list TypeRef) : forall v b c : PartitionValues,
  all_equal ts v b = true -> lex ts b c = true -> lex ts v c = true.
Proof.
  induction ts as [|t ts IH]; intros [|x v] [|y b] [|z c];
    cbn [lex all_equal]; try discriminate.
  intros Hvb. apply andb_true_iff in Hvb as [Exy Hvb].
  destruct (makeLess t y z) eqn:Lyz.
  - intros _. now rewrite (equal_less t x y z Exy Lyz).
  - destruct (makeEqual t y z) eqn:Eyz; [|discriminate].
    intros Hbc. destruct (makeLess t x z); [reflexivity|].
    rewrite (equal_trans t x y z Exy Eyz). eauto.
Qed.

Lemma lex_equal_irrefl (ts : list TypeRef) : forall v b : PartitionValues,
  all_equal ts v b = true -> lex ts v b = false.
Proof.
  induction ts as [|t ts IH]; intros [|x v] [|y b];
    cbn [lex all_equal]; try discriminate; try reflexivity.
  intros Hvb. apply andb_true_iff in Hvb as [Exy Hvb].
  rewrite (equal_not_less t x y Exy), Exy. auto.
Qed.

(** [lessThan] is transitive on tuples of the right size. *)
Lemma lessThan_trans (a b c : PartitionValues) :
  size a = size ids -> size b = size ids -> size c = size ids ->
  lessThan r a b = Ret true -> lessThan r b c = Ret true ->
  lessThan r a c = Ret true.
Proof.
  intros Ha Hb Hc. destruct (length ids) eqn:Hk.
  - intros _ _. now apply lessThan_no_attribute.
  - rewrite !lessThan_lex by (auto; lia).
    intros [= Hab] [= Hbc]. f_equal. eapply lex_trans; eauto.
Qed.

End LessThanFacts.

(** ** The search of [getPartitionId] on a well-formed header *)

Section SearchFacts.
Context `{PF : Platform}.
Variable r : RangePartitionSchemeHeader.
Hypothesis WF : range_wf r.
Variable values : PartitionValues.
Hypothesis values_size :
  size values = size (partition_attribute_ids_ (range_base r)).

Let ids := partition_attribute_ids_ (range_base r).
Let bnds := partition_range_boundaries_ r.

Lemma boundaries_fit : size bnds < SizeT.modulus.
Proof.
  unfold bnds. rewrite (wf_count r WF). unfold SizeT.sub.
  apply wrap_fits.
Qed.

Lemma boundary_size (i : Z) (b : PartitionValues) :
  vec_at bnds i = Ret b -> size b = size ids.
Proof.
  intros E. apply vec_at_inv in E as [_ E]. apply nth_error_In in E.
  pose proof (wf_sizes r WF) as F. rewrite Forall_forall in F. now apply F.
Qed.

(** Reading a boundary that exists and comparing with it cannot fail. *)
Lemma probe_total (i : Z) :
  0 <= i < size bnds -> exists bl, probe r values i = ([i], Ret bl).
Proof.
  intros Hi. destruct (vec_at_in_range bnds i Hi) as [b Eb].
  destruct (lessThan_total r WF values b values_size (boundary_size i b Eb))
    as [bl El].
  exists bl. unfold probe. fold bnds. rewrite Eb. cbn [rbind]. now rewrite El.
Qed.

Lemma probe_inv (i : Z) (bl : bool) :
  probe r values i = ([i], Ret bl) ->
  exists b, vec_at bnds i = Ret b /\ lessThan r values b = Ret bl.
Proof.
  unfold probe. fold bnds. intros [= E].
  destruct (vec_at bnds i) as [b|] eqn:Eb; [|discriminate]. eauto.
Qed.

Lemma mid_value (start end_ : Z) :
  0 <= start < end_ -> end_ < size bnds ->
  SizeT.add start (SizeT.shr (SizeT.sub end_ start) 1)
  = start + (end_ - start) / 2.
Proof.
  intros H1 H2. pose proof boundaries_fit as F.
  unfold SizeT.add, SizeT.sub, SizeT.shr.
  assert (0 <= (end_ - start) / 2 <= end_ - start).
  { split; [apply Z.div_pos; lia|].
    apply Z.div_le_upper_bound; lia. }
  rewrite (wrap_small (end_ - start)) by (unfold SizeT.fits; lia).
  rewrite Z.shiftr_div_pow2 by lia. change (2 ^ 1) with 2.
  apply wrap_small. unfold SizeT.fits. lia.
Qed.

(** One turn of the loop: [mid] lies in [start, end), it is the only
    boundary read, and the turn leaves either [(start, mid)] or
    [(mid + 1, end)]. *)
Lemma loop_body_spec (start end_ : Z) :
  0 <= start < end_ -> end_ < size bnds ->
  exists mid bl,
    mid = start + (end_ - start) / 2 /\
    start <= mid < end_ /\
    probe r values mid = ([mid], Ret bl) /\
    loop_body r values start end_
    = ([mid], Ret (if bl then (start, mid) else (mid + 1, end_))).
Proof.
  intros H1 H2. pose proof boundaries_fit as F.
  exists (start + (end_ - start) / 2).
  assert (Hm : start <= start + (end_ - start) / 2 < end_).
  { assert (0 <= (end_ - start) / 2) by (apply Z.div_pos; lia).
    assert ((end_ - start) / 2 < end_ - start)
      by (apply Z.div_lt_upper_bound; lia).
    lia. }
  destruct (probe_total (start + (end_ - start) / 2)) as [bl Ep]; [lia|].
  exists bl. repeat split; try lia; [exact Ep|].
  unfold loop_body. rewrite mid_value by lia. rewrite Ep.
  cbn [mbind]. destruct bl; cbn [mret app]; [reflexivity|].
  unfold SizeT.add. rewrite wrap_small by (unfold SizeT.fits; lia).
  reflexivity.
Qed.

(** The loop stops within [end - start] turns, reads only positions of
    [start, end), and stops at a position [m] above a boundary that
    [values] is not below and at a boundary that it is below, unless [m]
    is an end of the interval. *)
Lemma while_loop_runs (fuel : nat) : forall start end_ : Z,
  0 <= start <= end_ -> end_ < size bnds ->
  (Z.to_nat (end_ - start) <= fuel)%nat ->
  exists t m,
    while_loop fuel r values start end_ = (t, Ret m) /\
    start <= m <= end_ /\
    Forall (fun i => start <= i < end_) t /\
    (m = start \/ probe r values (m - 1) = ([m - 1], Ret false)) /\
    (m = end_ \/ probe r values m = ([m], Ret true)).
Proof.
  induction fuel as [|fuel IH]; intros start end_ H1 H2 Hf.
  - exists [], start. assert (start = end_) by lia. subst end_.
    cbn [while_loop]. rewrite Z.ltb_irrefl. repeat split; auto; lia.
  - cbn [while_loop]. destruct (start <? end_) eqn:Lt.
    + apply Z.ltb_lt in Lt.
      destruct (loop_body_spec start end_) as (mid & bl & _ & Hm & Ep & Eb);
        [lia|lia|].
      rewrite Eb. cbn [mbind]. destruct bl; cbn [fst snd].
      * destruct (IH start mid) as (t & m & E & Hr & Ht & Hlo & Hhi);
          [lia|lia|lia|].
        rewrite E. exists ([mid] ++ t), m. repeat split; try lia.
        -- constructor; [lia|]. eapply Forall_impl; [|exact Ht].
           cbv beta. intros. lia.
        -- exact Hlo.
        -- right. destruct Hhi as [->|Hhi]; assumption.
      * destruct (IH (mid + 1) end_) as (t & m & E & Hr & Ht & Hlo & Hhi);
          [lia|lia|lia|].
        rewrite E. exists ([mid] ++ t), m. repeat split; try lia.
        -- constructor; [lia|]. eapply Forall_impl; [|exact Ht].
           cbv beta. intros. lia.
        -- right. destruct Hlo as [->|Hlo]; [|assumption].
           now replace (mid + 1 - 1) with mid by lia.
        -- exact Hhi.
    + apply Z.ltb_ge in Lt. exists [], start. repeat split; auto; lia.
Qed.

(** More fuel does not change a run that ended. *)
Lemma while_loop_more_fuel (fuel : nat) : forall (start end_ : Z) t m,
  while_loop fuel r values start end_ = (t, Ret m) ->
  forall fuel', (fuel <= fuel')%nat ->
    while_loop fuel' r values start end_ = (t, Ret m).
Proof.
  induction fuel as [|fuel IH]; intros start end_ t m E fuel' Hf.
  - cbn [while_loop] in E. destruct (start <? end_) eqn:Lt; [discriminate|].
    destruct fuel'; cbn [while_loop]; now rewrite Lt.
  - destruct fuel' as [|fuel']; [lia|].
    cbn [while_loop] in *. destruct (start <? end_); [|exact E].
    destruct (loop_body r values start end_) as [t0 [[s e]|f]];
      cbn [mbind fst snd] in *; [|discriminate].
    destruct (while_loop fuel r values s e) as [t1 [m1|f]] eqn:E1;
      [|discriminate].
    rewrite (IH s e t1 m1 E1 fuel') by lia. exact E.
Qed.

End SearchFacts.

(** ** [getPartitionId] of a range header with at least two partitions *)

Section RangeFacts.
Context `{PF : Platform}.
Variable r : RangePartitionSchemeHeader.
Hypothesis WF : range_wf r.
Hypothesis two_partitions : 2 <= num_partitions_ (range_base r).

Let ids := partition_attribute_ids_ (range_base r).
Let bnds := partition_range_boundaries_ r.
Let P := num_partitions_ (range_base r).

Lemma boundaries_count : size bnds = P - 1.
Proof.
  unfold bnds. rewrite (wf_count r WF). unfold SizeT.sub.
  apply wrap_small. pose proof (wf_num_fit r WF) as F. fold P in F.
  unfold SizeT.fits in *. fold P in two_partitions. lia.
Qed.

Lemma last_boundary : SizeT.sub (size bnds) 1 = P - 2.
Proof.
  rewrite boundaries_count. unfold SizeT.sub.
  replace (P - 1 - 1) with (P - 2) by lia.
  apply wrap_small. pose proof (wf_num_fit r WF) as F. fold P in F.
  unfold SizeT.fits in *. fold P in two_partitions. lia.
Qed.

Lemma last_partition : SizeT.sub P 1 = P - 1.
Proof. rewrite <- boundaries_count. symmetry. exact (wf_count r WF). Qed.

Lemma probe_below (values : PartitionValues) (j : Z) :
  probe r values j = ([j], Ret true) -> below r values j.
Proof. intros E. now apply probe_inv in E. Qed.

Lemma probe_not_below (values : PartitionValues) (j : Z) :
  probe r values j = ([j], Ret false) -> not_below r values j.
Proof. intros E. now apply probe_inv in E. Qed.

Lemma below_not_below (values : PartitionValues) (j : Z) :
  below r values j -> not_below r values j -> False.
Proof. intros (b & E1 & L1) (b' & E2 & L2). congruence. Qed.

(** The search: it ends, reads boundaries only at positions [0 .. P-2],
    and returns the partition right above a boundary that [values] is not
    below and right at a boundary that [values] is below. *)
Lemma range_search (values : PartitionValues) :
  size values = size ids ->
  exists t pid,
    (forall fuel, (Z.to_nat (P - 2) <= fuel)%nat ->
       Range_getPartitionId_fuel fuel r values = (t, Ret pid)) /\
    Forall (fun i => 0 <= i <= P - 2) t /\
    0 <= pid <= P - 1 /\
    (pid = 0 \/ not_below r values (pid - 1)) /\
    (pid = P - 1 \/ below r values pid).
Proof.
  intros Hv. fold P in two_partitions.
  pose proof boundaries_count as Hc.
  destruct (probe_total r WF values Hv (P - 2)) as [bl Ep];
    [fold bnds; lia|].
  assert (Start : forall fuel,
    Range_getPartitionId_fuel fuel r values
    = let (t', res) := if negb bl then mret (P - 1)
                       else while_loop fuel r values 0 (P - 2) in
      ([] ++ [P - 2] ++ t', res)).
  { intros fuel. unfold Range_getPartitionId_fuel.
    rewrite (DCHECK_same_size r values Hv). fold bnds P.
    rewrite last_boundary, last_partition.
    unfold lift. cbn [mbind]. rewrite Ep. cbn [mbind].
    destruct bl; cbn [negb]; [|reflexivity].
    destruct (while_loop fuel r values 0 (P - 2)). reflexivity. }
  destruct bl.
  - destruct (while_loop_runs r WF values Hv (Z.to_nat (P - 2)) 0 (P - 2))
      as (t & m & E & Hr & Ht & Hlo & Hhi); [lia|fold bnds; lia|lia|].
    exists ([P - 2] ++ t), m. repeat split; try lia.
    + intros fuel Hf. rewrite Start. cbn [negb].
      rewrite (while_loop_more_fuel r values _ _ _ _ _ E fuel Hf).
      reflexivity.
    + constructor; [lia|]. eapply Forall_impl; [|exact Ht].
      cbv beta. intros. lia.
    + destruct Hlo as [->|Hlo]; [now left|right].
      now apply probe_not_below.
    + right. apply probe_below. destruct Hhi as [->|Hhi]; assumption.
  - exists [P - 2], (P - 1). repeat split; try lia.
    + intros fuel _. now rewrite Start.
    + repeat constructor; lia.
    + right. replace (P - 1 - 1) with (P - 2) by lia.
      now apply probe_not_below.
Qed.

(** When [values] is not below the last boundary, that boundary is the only
    one read and the answer is the last partition. *)
Lemma range_search_early (values : PartitionValues) :
  size values = size ids ->
  not_below r values (P - 2) ->
  forall fuel,
    Range_getPartitionId_fuel fuel r values = ([P - 2], Ret (P - 1)).
Proof.
  intros Hv (b & Eb & Lb) fuel. unfold Range_getPartitionId_fuel.
  rewrite (DCHECK_same_size r values Hv). fold bnds P.
  rewrite last_boundary, last_partition.
  fold bnds in Eb. unfold lift, probe. fold bnds.
  rewrite Eb. cbn [rbind]. rewrite Lb. reflexivity.
Qed.

Lemma range_getPartitionId_search (values : PartitionValues) :
  size values = size ids ->
  exists t pid,
    Range_getPartitionId r values = (t, Ret pid) /\
    Forall (fun i => 0 <= i <= P - 2) t /\
    0 <= pid <= P - 1 /\
    (pid = 0 \/ not_below r values (pid - 1)) /\
    (pid = P - 1 \/ below r values pid).
Proof.
  intros Hv. destruct (range_search values Hv) as (t & pid & E & H).
  exists t, pid. split; [|exact H]. apply E.
  pose proof boundaries_count as Hc. unfold size in Hc. fold bnds. lia.
Qed.

Hypothesis ASC : ascending r.
Context {CC : ConsistentComparators PF}.

(** Under ascending boundaries, "[values] is below boundary [j]" is
    monotone in [j]. *)
Lemma below_step (values : PartitionValues) (j : Z) :
  size values = size ids -> j + 1 < size bnds ->
  below r values j -> below r values (j + 1).
Proof.
  intros Hv Hj (b & Eb & Lb).
  pose proof (boundary_size r WF _ _ Eb) as Sb.
  apply vec_at_inv in Eb as [Rj Nb]. fold bnds in Rj, Nb.
  destruct (vec_at_in_range bnds (j + 1)) as [b' Eb']; [lia|].
  pose proof (boundary_size r WF _ _ Eb') as Sb'.
  exists b'. split; [exact Eb'|].
  apply vec_at_inv in Eb' as [_ Nb'].
  replace (Z.to_nat (j + 1)) with (S (Z.to_nat j)) in Nb' by lia.
  eapply (lessThan_trans r WF values b b'); eauto.
Qed.

Lemma below_mono (values : PartitionValues) (i j : Z) :
  size values = size ids -> i <= j < size bnds ->
  below r values i -> below r values j.
Proof.
  intros Hv Hij Hi.
  replace j with (i + Z.of_nat (Z.to_nat (j - i))) in * by lia.
  induction (Z.to_nat (j - i)) as [|n IH].
  - now rewrite Z.add_0_r.
  - replace (i + Z.of_nat (S n)) with (i + Z.of_nat n + 1) in * by lia.
    apply below_step; [auto|lia|]. apply IH. lia.
Qed.

(** The partition of [values] is the only [j] such that [values] is not
    below boundary [j - 1] and is below boundary [j], where these exist. *)
Lemma range_getPartitionId_unique (values : PartitionValues) (j : Z) :
  size values = size ids ->
  0 <= j <= P - 1 ->
  (j = 0 \/ not_below r values (j - 1)) ->
  (j = P - 1 \/ below r values j) ->
  exists t, Range_getPartitionId r values = (t, Ret j).
Proof.
  intros Hv Hj Hlo Hhi. pose proof boundaries_count as Hc.
  destruct (range_getPartitionId_search values Hv)
    as (t & pid & E & _ & Hp & Plo & Phi).
  exists t. rewrite E. do 2 f_equal.
  destruct (Z.lt_trichotomy pid j) as [Lt|[Eq|Gt]]; [exfalso|exact Eq|exfalso].
  - destruct Phi as [->|Phi]; [lia|].
    destruct Hlo as [->|Hlo]; [lia|].
    eapply below_not_below; [|exact Hlo].
    apply (below_mono values pid); auto. lia.
  - destruct Hhi as [->|Hhi]; [lia|].
    destruct Plo as [->|Plo]; [lia|].
    eapply below_not_below; [|exact Plo].
    apply (below_mono values j); auto. lia.
Qed.

End RangeFacts.

(** ** The constructor and [checkPartitionRangeBoundaries] *)

Section ConstructorFacts.
Context `{PF : Platform}.

Lemma CHECK_inv (c : bool) : CHECK c = Ret tt -> c = true.
Proof. destruct c; [reflexivity|discriminate]. Qed.

Lemma DCHECK_cases (c : bool) :
  DCHECK c = Ret tt \/ DCHECK c = Fault CheckFailed /\ c = false.
Proof. unfold DCHECK, CHECK. destruct DCHECK_IS_ON, c; auto. Qed.

Lemma DCHECK_inv (c : bool) :
  DCHECK c = Ret tt -> DCHECK_IS_ON = true -> c = true.
Proof. unfold DCHECK. intros E On. rewrite On in E. now apply CHECK_inv. Qed.

Variable r : RangePartitionSchemeHeader.
Let ids := partition_attribute_ids_ (range_base r).
Let bnds := partition_range_boundaries_ r.

(** The first loop either accepts tuples that all have the size of the
    attribute list, or fails its [CHECK_EQ] on one that has not. *)
Lemma check_boundary_sizes_spec (bs : list PartitionValues) :
  check_boundary_sizes r bs = Ret tt /\ sizes_match ids bs \/
  check_boundary_sizes r bs = Fault CheckFailed /\ ~ sizes_match ids bs.
Proof.
  induction bs as [|b bs IH]; cbn [check_boundary_sizes].
  - left. split; [reflexivity|constructor].
  - fold ids. unfold CHECK. destruct (size ids =? size b) eqn:E; cbn [rbind].
    + apply Z.eqb_eq in E. destruct IH as [[E1 F]|[E1 F]]; [left|right].
      * split; [exact E1|]. constructor; auto.
      * split; [exact E1|]. intros G. exact (F (Forall_inv_tail G)).
    + apply Z.eqb_neq in E. right. split; [reflexivity|].
      intros G. apply E. symmetry. exact (Forall_inv G).
Qed.

(** A second loop that comes to its end has seen [lessThan] answer [true]
    for every [part_id] it went through. *)
Lemma check_ascending_sound (n : nat) : forall i : nat,
  (1 <= i)%nat ->
  check_ascending r (seq i n) = Ret tt ->
  forall j b1 b2, (i <= j < i + n)%nat ->
    nth_error bnds (j - 1) = Some b1 -> nth_error bnds j = Some b2 ->
    lessThan r b1 b2 = Ret true.
Proof.
  induction n as [|n IH]; intros i Hi E j b1 b2 Hj N1 N2; [lia|].
  cbn [seq check_ascending] in E. fold bnds in E.
  destruct (vec_at bnds (Z.of_nat i - 1)) as [p|] eqn:Ep; [|discriminate].
  destruct (vec_at bnds (Z.of_nat i)) as [c|] eqn:Ec; [|discriminate].
  cbn [rbind] in E.
  destruct (lessThan r p c) as [lt|] eqn:El; [|discriminate].
  cbn [rbind] in E. destruct lt; [|discriminate]. cbn [CHECK rbind] in E.
  destruct (Nat.eq_dec j i) as [->|Ne].
  - apply vec_at_inv in Ep as [_ Ep]. apply vec_at_inv in Ec as [_ Ec].
    replace (Z.to_nat (Z.of_nat i - 1)) with (i - 1)%nat in Ep by lia.
    rewrite Nat2Z.id in Ec. congruence.
  - apply (IH (S i)) with (j := j); auto; lia.
Qed.

Lemma check_ascending_ascending :
  check_ascending r (seq 1 (length bnds - 1)) = Ret tt -> ascending r.
Proof.
  intros E j b1 b2 N1 N2. fold bnds in N1, N2.
  assert (S j < length bnds)%nat by (apply nth_error_Some; congruence).
  apply (check_ascending_sound _ 1 (le_n 1) E (S j)); auto; [lia|].
  now replace (S j - 1)%nat with j by lia.
Qed.

(** When [lessThan] answers on the boundaries, the second loop either
    comes to its end or fails its [CHECK]. *)
Lemma check_ascending_cases (n : nat) : forall i : nat,
  (1 <= i)%nat -> (i + n <= length bnds)%nat ->
  (forall b1 b2, In b1 bnds -> In b2 bnds ->
     exists bl, lessThan r b1 b2 = Ret bl) ->
  check_ascending r (seq i n) = Ret tt \/
  check_ascending r (seq i n) = Fault CheckFailed.
Proof.
  induction n as [|n IH]; intros i Hi Hn Tot; [now left|].
  cbn [seq check_ascending]. fold bnds.
  destruct (vec_at_in_range bnds (Z.of_nat i - 1)) as [p Ep];
    [unfold size; lia|].
  destruct (vec_at_in_range bnds (Z.of_nat i)) as [c Ec];
    [unfold size; lia|].
  rewrite Ep, Ec. cbn [rbind].
  destruct (Tot p c) as [[|] El].
  - apply vec_at_inv in Ep as [_ Ep]. eapply nth_error_In, Ep.
  - apply vec_at_inv in Ec as [_ Ec]. eapply nth_error_In, Ec.
  - rewrite El. cbn [rbind CHECK]. apply IH; auto; lia.
  - rewrite El. cbn [rbind CHECK]. now right.
Qed.

(** [lessThan] answers whenever both tuples and both comparator vectors
    have one entry per partitioning attribute. *)
Lemma lessThan_loop_answers (lhs rhs : PartitionValues) :
  length (less_unchecked_comparators_ r) = length ids ->
  length (equal_unchecked_comparators_ r) = length ids ->
  length lhs = length ids -> length rhs = length ids ->
  forall n i, (i + n = length ids)%nat ->
    exists bl, lessThan_loop r lhs rhs (seq i n) = Ret bl.
Proof.
  intros Hlt Heq Hl Hr. induction n as [|n IH]; intros i Hi.
  - now exists true.
  - cbn [seq lessThan_loop].
    destruct (vec_at_in_range (less_unchecked_comparators_ r)
                (Z.of_nat i)) as [lt E1]; [unfold size; lia|].
    destruct (vec_at_in_range (equal_unchecked_comparators_ r)
                (Z.of_nat i)) as [eq E2]; [unfold size; lia|].
    destruct (vec_at_in_range lhs (Z.of_nat i)) as [l E3];
      [unfold size; lia|].
    destruct (vec_at_in_range rhs (Z.of_nat i)) as [rv E4];
      [unfold size; lia|].
    rewrite E1, E3, E4. cbn [rbind].
    destruct (lt l rv); [now exists true|].
    rewrite E2. cbn [rbind].
    destruct (eq l rv); [|now exists false].
    destruct (_ =? _); [now exists false|]. apply IH. lia.
Qed.

Lemma lessThan_answers (lhs rhs : PartitionValues) :
  length (less_unchecked_comparators_ r) = length ids ->
  length (equal_unchecked_comparators_ r) = length ids ->
  size lhs = size ids -> size rhs = size ids ->
  exists bl, lessThan r lhs rhs = Ret bl.
Proof.
  intros Hlt Heq Hl Hr. unfold lessThan. fold ids.
  unfold DCHECK, CHECK. rewrite <- Hl, Z.eqb_refl, Hl, <- Hr, Z.eqb_refl.
  destruct DCHECK_IS_ON; cbn [rbind];
    apply lessThan_loop_answers; auto; unfold size in *; lia.
Qed.

(** [checkPartitionRangeBoundaries] as a whole. *)
Lemma checkPartitionRangeBoundaries_sound :
  checkPartitionRangeBoundaries r = Ret tt ->
  sizes_match ids bnds /\ ascending r.
Proof.
  unfold checkPartitionRangeBoundaries. fold bnds.
  destruct (check_boundary_sizes_spec bnds) as [[E F]|[E F]];
    rewrite E; cbn [rbind]; [|discriminate].
  intros A. split; [exact F|]. now apply check_ascending_ascending.
Qed.

Lemma checkPartitionRangeBoundaries_cases :
  length (less_unchecked_comparators_ r) = length ids ->
  length (equal_unchecked_comparators_ r) = length ids ->
  checkPartitionRangeBoundaries r = Ret tt \/
  checkPartitionRangeBoundaries r = Fault CheckFailed.
Proof.
  intros Hlt Heq. unfold checkPartitionRangeBoundaries. fold bnds.
  destruct (check_boundary_sizes_spec bnds) as [[E F]|[E F]];
    rewrite E; cbn [rbind]; [|now right].
  destruct (length bnds) as [|n] eqn:Hn; [now left|].
  apply check_ascending_cases; [lia|lia|].
  intros b1 b2 I1 I2. unfold sizes_match in F. rewrite Forall_forall in F.
  apply lessThan_answers; auto.
Qed.

End ConstructorFacts.

(** ** The integer platform and the example headers *)

Lemma int_consistent (dchecks debug : bool) :
  ConsistentComparators (IntPlatform dchecks debug).
Proof.
  constructor; cbn [makeLess makeEqual IntPlatform]; intros _ a b; intros;
    repeat match goal with
           | H : (_ =? _) = true |- _ => apply Z.eqb_eq in H
           | H : (_ <? _) = true |- _ => apply Z.ltb_lt in H
           end;
    first [apply Z.ltb_ge | apply Z.eqb_eq | apply Z.ltb_lt]; lia.
Qed.

Lemma three_ranges_wf : range_wf three_ranges.
Proof.
  constructor; try reflexivity; try (split; [discriminate|reflexivity]).
  repeat constructor.
Qed.

Lemma three_ranges_ascending : ascending three_ranges.
Proof.
  intros [|[|j]] b1 b2 N1 N2; cbn in N1, N2.
  - injection N1 as <-. injection N2 as <-. reflexivity.
  - discriminate.
  - destruct j; discriminate.
Qed.

(** ** The claims about the range search *)

(** C1.  A range header with P >= 2 partitions and ascending boundaries
    b_0 .. b_{P-2} sends [values] to partition 0 when [values] is less than
    b_0, to partition j (0 < j < P-1) when [values] is not less than b_{j-1}
    and is less than b_j, and to partition P-1 when [values] is not less
    than b_{P-2}.  With three partitions on one integer attribute and
    boundaries [10] and [20], the values 5, 10, 15, 20 and 1000 go to
    partitions 0, 1, 1, 2 and 2, whatever the build switches. *)
Theorem range_getPartitionId_semantics :
  (forall (PF : Platform) (CC : ConsistentComparators PF)
          (r : RangePartitionSchemeHeader) (values : PartitionValues),
      range_wf r -> ascending r ->
      2 <= num_partitions_ (range_base r) ->
      size values = size (partition_attribute_ids_ (range_base r)) ->
      (below r values 0 ->
       snd (getPartitionId (Range r) values) = Ret 0) /\
      (forall j, 0 < j < num_partitions_ (range_base r) - 1 ->
         not_below r values (j - 1) -> below r values j ->
         snd (getPartitionId (Range r) values) = Ret j) /\
      (not_below r values (num_partitions_ (range_base r) - 2) ->
       snd (getPartitionId (Range r) values)
       = Ret (num_partitions_ (range_base r) - 1))) /\
  (forall dchecks debug : bool,
      exists r,
        newRangePartitionSchemeHeader (PF := IntPlatform dchecks debug)
          3 [0] [tt] [[10]; [20]] = Ret r /\
        snd (getPartitionId (Range r) [5]) = Ret 0 /\
        snd (getPartitionId (Range r) [10]) = Ret 1 /\
        snd (getPartitionId (Range r) [15]) = Ret 1 /\
        snd (getPartitionId (Range r) [20]) = Ret 2 /\
        snd (getPartitionId (Range r) [1000]) = Ret 2).
Proof.
  split.
  - intros PF CC r values WF ASC HP Hv.
    assert (U : forall j, 0 <= j <= num_partitions_ (range_base r) - 1 ->
      (j = 0 \/ not_below r values (j - 1)) ->
      (j = num_partitions_ (range_base r) - 1 \/ below r values j) ->
      snd (getPartitionId (Range r) values) = Ret j).
    { intros j Hj Hlo Hhi. cbn [getPartitionId].
      destruct (range_getPartitionId_unique r WF HP ASC values j Hv Hj Hlo Hhi)
        as [t E].
      now rewrite E. }
    split; [|split].
    + intros B. apply U; [lia|now left|now right].
    + intros j Hj NB B. apply U; [lia|now right|now right].
    + intros NB. apply U; [lia| |now left]. right.
      now replace (num_partitions_ (range_base r) - 1 - 1)
        with (num_partitions_ (range_base r) - 2) by lia.
  - intros [|] [|]; eexists; (split; [reflexivity|]);
      repeat split; vm_compute; reflexivity.
Qed.

Lemma range_getPartitionId_semantics_witness :
  range_wf three_ranges /\ ascending three_ranges /\
  2 <= num_partitions_ (range_base three_ranges) /\
  size [15] = size (partition_attribute_ids_ (range_base three_ranges)) /\
  not_below three_ranges [15] (1 - 1) /\ below three_ranges [15] 1 /\
  snd (getPartitionId (Range three_ranges) [15]) = Ret 1.
Proof.
  assert (NB : not_below three_ranges [15] (1 - 1))
    by (exists [10]; split; reflexivity).
  assert (B : below three_ranges [15] 1)
    by (exists [20]; split; reflexivity).
  assert (HP : 2 <= num_partitions_ (range_base three_ranges)) by (cbn; lia).
  refine (conj three_ranges_wf (conj three_ranges_ascending
           (conj HP (conj eq_refl (conj NB (conj B _)))))).
  refine (proj1 (proj2 (proj1 range_getPartitionId_semantics
            DebugInt (int_consistent true true) three_ranges [15]
            three_ranges_wf three_ranges_ascending HP eq_refl)) 1 _ NB B).
  cbn; lia.
Defined.

Lemma all_positions_equal `{PF : Platform} (ts : list TypeRef) :
  forall v b : PartitionValues,
    length v = length ts -> length b = length ts ->
    (forall i, (i < length ts)%nat ->
       holds_at (map makeEqual ts) v b i = true) ->
    all_equal ts v b = true.
Proof.
  induction ts as [|t ts IH]; intros [|x v] [|y b] Lv Lb Hall;
    cbn [length] in *; try lia; [reflexivity|].
  cbn [all_equal]. apply andb_true_iff. split.
  - exact (Hall 0%nat ltac:(lia)).
  - apply IH; try lia. intros i Hi. apply (Hall (S i)). lia.
Qed.

(** C2.  In a range header with ascending boundaries, a tuple that is equal
    to boundary b_j at every position, by the equality comparators of the
    header, goes to partition j + 1. *)
Theorem range_boundary_goes_above
    (PF : Platform) (CC : ConsistentComparators PF)
    (r : RangePartitionSchemeHeader) (j : Z) (b values : PartitionValues) :
  range_wf r -> ascending r ->
  2 <= num_partitions_ (range_base r) ->
  partition_attribute_ids_ (range_base r) <> [] ->
  0 <= j <= num_partitions_ (range_base r) - 2 ->
  vec_at (partition_range_boundaries_ r) j = Ret b ->
  size values = size (partition_attribute_ids_ (range_base r)) ->
  (forall i, (i < length (partition_attribute_ids_ (range_base r)))%nat ->
     holds_at (equal_unchecked_comparators_ r) values b i = true) ->
  snd (getPartitionId (Range r) values) = Ret (j + 1).
Proof.
  intros WF ASC HP Hids Hj Eb Hv Hall.
  assert (Hk : (1 <= length (partition_attribute_ids_ (range_base r)))%nat).
  { destruct (partition_attribute_ids_ (range_base r)); [congruence|].
    cbn [length]. lia. }
  pose proof (wf_types_length r WF) as Ht.
  pose proof (boundary_size r WF _ _ Eb) as Sb.
  pose proof (boundaries_count r WF HP) as Hc.
  assert (Heq : all_equal (partition_attr_types_ r) values b = true).
  { rewrite (wf_equal r WF) in Hall. unfold size in Hv, Sb.
    apply all_positions_equal; try lia.
    intros i Hi. apply Hall. lia. }
  assert (NB : not_below r values j).
  { exists b. split; [exact Eb|].
    rewrite (lessThan_lex r WF) by auto.
    now rewrite (lex_equal_irrefl _ _ _ Heq). }
  cbn [getPartitionId].
  destruct (range_getPartitionId_unique r WF HP ASC values (j + 1) Hv)
    as [t E]; [lia| | |now rewrite E].
  - right. now replace (j + 1 - 1) with j by lia.
  - destruct (Z.eq_dec (j + 1) (num_partitions_ (range_base r) - 1))
      as [Last|NotLast]; [now left|right].
    destruct (vec_at_in_range (partition_range_boundaries_ r) (j + 1))
      as [b' Eb']; [lia|].
    pose proof (boundary_size r WF _ _ Eb') as Sb'.
    exists b'. split; [exact Eb'|].
    assert (L : lessThan r b b' = Ret true).
    { apply vec_at_inv in Eb as [_ N1]. apply vec_at_inv in Eb' as [_ N2].
      replace (Z.to_nat (j + 1)) with (S (Z.to_nat j)) in N2 by lia.
      exact (ASC _ _ _ N1 N2). }
    rewrite (lessThan_lex r WF) in L by auto. injection L as L.
    rewrite (lessThan_lex r WF) by auto.
    now rewrite (lex_equal_left _ _ _ _ Heq L).
Qed.

Lemma range_boundary_goes_above_witness :
  range_wf three_ranges /\ ascending three_ranges /\
  2 <= num_partitions_ (range_base three_ranges) /\
  partition_attribute_ids_ (range_base three_ranges) <> [] /\
  0 <= 0 <= num_partitions_ (range_base three_ranges) - 2 /\
  vec_at (partition_range_boundaries_ three_ranges) 0 = Ret [10] /\
  size [10] = size (partition_attribute_ids_ (range_base three_ranges)) /\
  (forall i,
     (i < length (partition_attribute_ids_ (range_base three_ranges)))%nat ->
     holds_at (equal_unchecked_comparators_ three_ranges) [10] [10] i = true) /\
  snd (getPartitionId (Range three_ranges) [10]) = Ret (0 + 1).
Proof.
  assert (HP : 2 <= num_partitions_ (range_base three_ranges)) by (cbn; lia).
  assert (Hids : partition_attribute_ids_ (range_base three_ranges) <> [])
    by discriminate.
  assert (Hj : 0 <= 0 <= num_partitions_ (range_base three_ranges) - 2)
    by (cbn; lia).
  assert (Hall : forall i,
    (i < length (partition_attribute_ids_ (range_base three_ranges)))%nat ->
    holds_at (equal_unchecked_comparators_ three_ranges) [10] [10] i = true).
  { intros [|i] Hi; [reflexivity|cbn in Hi; lia]. }
  refine (conj three_ranges_wf (conj three_ranges_ascending
           (conj HP (conj Hids (conj Hj (conj eq_refl (conj eq_refl
             (conj Hall _)))))))).
  exact (range_boundary_goes_above DebugInt (int_consistent true true)
           three_ranges 0 [10] [10] three_ranges_wf three_ranges_ascending
           HP Hids Hj eq_refl eq_refl Hall).
Defined.

(** C3.  In a range header with ascending boundaries, a tuple that is
    [lessThan] another one goes to a partition that is not above the
    partition of the other one. *)
Theorem range_getPartitionId_monotone
    (PF : Platform) (CC : ConsistentComparators PF)
    (r : RangePartitionSchemeHeader) (v1 v2 : PartitionValues) :
  range_wf r -> ascending r ->
  2 <= num_partitions_ (range_base r) ->
  size v1 = size (partition_attribute_ids_ (range_base r)) ->
  size v2 = size (partition_attribute_ids_ (range_base r)) ->
  lessThan r v1 v2 = Ret true ->
  exists p1 p2,
    snd (getPartitionId (Range r) v1) = Ret p1 /\
    snd (getPartitionId (Range r) v2) = Ret p2 /\
    p1 <= p2.
Proof.
  intros WF ASC HP H1 H2 Lt.
  pose proof (boundaries_count r WF HP) as Hc.
  destruct (range_getPartitionId_search r WF HP v1 H1)
    as (t1 & p1 & E1 & _ & R1 & Lo1 & _).
  destruct (range_getPartitionId_search r WF HP v2 H2)
    as (t2 & p2 & E2 & _ & R2 & _ & Hi2).
  exists p1, p2. cbn [getPartitionId]. rewrite E1, E2.
  split; [reflexivity|split; [reflexivity|]].
  destruct (Z_le_gt_dec p1 p2) as [Le|Gt]; [exact Le|exfalso].
  destruct Lo1 as [->|(b & Eb & Lb)]; [lia|].
  destruct Hi2 as [->|B2]; [lia|].
  assert (B : below r v2 (p1 - 1))
    by (apply (below_mono r WF ASC v2 p2); auto; lia).
  destruct B as (b' & Eb' & Lb').
  assert (b' = b) by congruence. subst b'.
  pose proof (boundary_size r WF _ _ Eb) as Sb.
  pose proof (lessThan_trans r WF v1 v2 b H1 H2 Sb Lt Lb'). congruence.
Qed.

Lemma range_getPartitionId_monotone_witness :
  range_wf three_ranges /\ ascending three_ranges /\
  2 <= num_partitions_ (range_base three_ranges) /\
  size [5] = size (partition_attribute_ids_ (range_base three_ranges)) /\
  size [20] = size (partition_attribute_ids_ (range_base three_ranges)) /\
  lessThan three_ranges [5] [20] = Ret true /\
  exists p1 p2,
    snd (getPartitionId (Range three_ranges) [5]) = Ret p1 /\
    snd (getPartitionId (Range three_ranges) [20]) = Ret p2 /\
    p1 <= p2.
Proof.
  assert (HP : 2 <= num_partitions_ (range_base three_ranges)) by (cbn; lia).
  refine (conj three_ranges_wf (conj three_ranges_ascending
           (conj HP (conj eq_refl (conj eq_refl (conj eq_refl _)))))).
  exact (range_getPartitionId_monotone DebugInt (int_consistent true true)
           three_ranges [5] [20] three_ranges_wf three_ranges_ascending
           HP eq_refl eq_refl eq_refl).
Defined.

(** ** The claim about [lessThan] *)

Section FirstDifference.
Context `{PF : Platform} {CC : ConsistentComparators PF}.

Lemma lex_first_difference (ts : list TypeRef) :
  forall (lhs rhs : PartitionValues) (i : nat),
    (forall j, (j < i)%nat ->
       holds_at (map makeEqual ts) lhs rhs j = true) ->
    holds_at (map makeEqual ts) lhs rhs i = false ->
    (i < length ts)%nat -> length lhs = length ts -> length rhs = length ts ->
    lex ts lhs rhs = holds_at (map makeLess ts) lhs rhs i.
Proof.
  induction ts as [|t ts IH]; intros [|l lhs] [|x rhs] i Hbefore Hi Hlt Hl Hr;
    cbn [length] in *; try lia.
  destruct i as [|i].
  - cbn in Hi. cbn. rewrite Hi. now destruct (makeLess t l x).
  - pose proof (Hbefore 0%nat ltac:(lia)) as E0. cbn in E0.
    cbn [lex]. rewrite (equal_not_less t l x E0), E0.
    apply (IH lhs rhs i); try lia; [|exact Hi].
    intros j Hj. apply (Hbefore (S j)). lia.
Qed.

Lemma lex_no_difference (ts : list TypeRef) :
  forall lhs rhs : PartitionValues,
    (forall j, (j < length ts)%nat ->
       holds_at (map makeEqual ts) lhs rhs j = true) ->
    lex ts lhs rhs = false.
Proof.
  induction ts as [|t ts IH]; intros [|l lhs] [|x rhs] Hall;
    cbn [lex]; try reflexivity.
  pose proof (Hall 0%nat ltac:(cbn; lia)) as E0. cbn in E0.
  rewrite (equal_not_less t l x E0), E0. apply IH.
  intros j Hj. apply (Hall (S j)). cbn. lia.
Qed.

Lemma lex_true_inv (ts : list TypeRef) :
  forall lhs rhs : PartitionValues,
    lex ts lhs rhs = true ->
    exists i, (i < length ts)%nat /\
      (forall j, (j < i)%nat ->
         holds_at (map makeEqual ts) lhs rhs j = true) /\
      holds_at (map makeEqual ts) lhs rhs i = false /\
      holds_at (map makeLess ts) lhs rhs i = true.
Proof.
  induction ts as [|t ts IH]; intros [|l lhs] [|x rhs];
    cbn [lex]; try discriminate.
  destruct (makeLess t l x) eqn:L.
  - intros _. exists 0%nat. cbn. repeat split; [lia|intros; lia| |exact L].
    destruct (makeEqual t l x) eqn:E; [|reflexivity].
    rewrite (equal_not_less t l x E) in L. discriminate.
  - destruct (makeEqual t l x) eqn:E; [|discriminate].
    intros H. destruct (IH _ _ H) as (i & Hi & Hb & He & Hl).
    exists (S i). cbn [length]. repeat split; [lia| |exact He|exact Hl].
    intros [|j] Hj; [exact E|]. apply Hb. lia.
Qed.

(** C4.  On two tuples with one value per partitioning attribute,
    [lessThan] answers what the less-than comparator says at the first
    position where the equality comparator says "not equal": [true] exactly
    when the left value is less there, [false] when it is not, and [false]
    when the tuples are equal at every position. *)
Theorem lessThan_decided_at_first_difference
    (r : RangePartitionSchemeHeader) (lhs rhs : PartitionValues) :
  range_wf r ->
  partition_attribute_ids_ (range_base r) <> [] ->
  size lhs = size (partition_attribute_ids_ (range_base r)) ->
  size rhs = size (partition_attribute_ids_ (range_base r)) ->
  (forall i, first_difference r lhs rhs i ->
     lessThan r lhs rhs
     = Ret (holds_at (less_unchecked_comparators_ r) lhs rhs i)) /\
  ((forall j, (j < length (partition_attribute_ids_ (range_base r)))%nat ->
      holds_at (equal_unchecked_comparators_ r) lhs rhs j = true) ->
   lessThan r lhs rhs = Ret false) /\
  (lessThan r lhs rhs = Ret true <->
   exists i, first_difference r lhs rhs i /\
             holds_at (less_unchecked_comparators_ r) lhs rhs i = true).
Proof.
  intros WF Hids Hl Hr.
  assert (Hk : (1 <= length (partition_attribute_ids_ (range_base r)))%nat).
  { destruct (partition_attribute_ids_ (range_base r)); [congruence|].
    cbn [length]. lia. }
  pose proof (wf_types_length r WF) as Ht.
  rewrite (lessThan_lex r WF lhs rhs Hl Hr Hk).
  unfold first_difference. rewrite (wf_less r WF), (wf_equal r WF).
  unfold size in Hl, Hr.
  assert (D : forall i,
    (i < length (partition_attribute_ids_ (range_base r)))%nat /\
    (forall j, (j < i)%nat ->
       holds_at (map makeEqual (partition_attr_types_ r)) lhs rhs j = true) /\
    holds_at (map makeEqual (partition_attr_types_ r)) lhs rhs i = false ->
    lex (partition_attr_types_ r) lhs rhs
    = holds_at (map makeLess (partition_attr_types_ r)) lhs rhs i).
  { intros i (Hi & Hb & He). apply lex_first_difference; auto; lia. }
  split; [|split].
  - intros i H. f_equal. now apply D.
  - intros Hall. f_equal. apply lex_no_difference. intros j Hj.
    apply Hall. lia.
  - split.
    + intros [= L]. destruct (lex_true_inv _ _ _ L) as (i & Hi & Hb & He & Hlt).
      exists i. repeat split; auto. lia.
    + intros (i & H & Hlt). f_equal. rewrite (D i H). exact Hlt.
Qed.

End FirstDifference.

Lemma lessThan_decided_at_first_difference_witness :
  range_wf three_ranges /\
  partition_attribute_ids_ (range_base three_ranges) <> [] /\
  size [5] = size (partition_attribute_ids_ (range_base three_ranges)) /\
  size [20] = size (partition_attribute_ids_ (range_base three_ranges)) /\
  first_difference three_ranges [5] [20] 0 /\
  lessThan three_ranges [5] [20] = Ret true.
Proof.
  assert (Hids : partition_attribute_ids_ (range_base three_ranges) <> [])
    by discriminate.
  assert (F : first_difference three_ranges [5] [20] 0).
  { split; [cbn; lia|]. split; [intros j Hj; lia|reflexivity]. }
  refine (conj three_ranges_wf (conj Hids (conj eq_refl (conj eq_refl
           (conj F _))))).
  exact (proj1 (lessThan_decided_at_first_difference
                  (CC := int_consistent true true) three_ranges [5] [20]
                  three_ranges_wf Hids eq_refl eq_refl) 0%nat F).
Defined.

(** ** The claim about the loop of [getPartitionId] *)

Section LoopRuns.
Context `{PF : Platform}.
Variable r : RangePartitionSchemeHeader.
Hypothesis WF : range_wf r.
Variable values : PartitionValues.
Hypothesis values_size :
  size values = size (partition_attribute_ids_ (range_base r)).

(** [while_loop], given turns enough, is the run of the loop, and the run
    leaves with [start = end]. *)
Lemma while_loop_run (fuel : nat) : forall start end_ : Z,
  0 <= start <= end_ -> end_ < size (partition_range_boundaries_ r) ->
  (Z.to_nat (end_ - start) <= fuel)%nat ->
  exists t m,
    while_loop fuel r values start end_ = (t, Ret m) /\
    loop_run r values start end_ t m m /\
    start <= m <= end_ /\
    Forall (fun i => start <= i < end_) t.
Proof.
  induction fuel as [|fuel IH]; intros start end_ H1 H2 Hf.
  - exists [], start. assert (start = end_) by lia. subst end_.
    cbn [while_loop]. rewrite Z.ltb_irrefl.
    repeat split; auto; try lia. apply loop_leaves. lia.
  - cbn [while_loop]. destruct (start <? end_) eqn:Lt.
    + apply Z.ltb_lt in Lt.
      destruct (loop_body_spec r WF values values_size start end_)
        as (mid & bl & _ & Hm & _ & Eb); [lia|lia|].
      rewrite Eb. cbn [mbind].
      assert (B : 0 <= fst (if bl then (start, mid) else (mid + 1, end_))
                  <= snd (if bl then (start, mid) else (mid + 1, end_))
                  /\ snd (if bl then (start, mid) else (mid + 1, end_))
                     < size (partition_range_boundaries_ r)
                  /\ start
                     <= fst (if bl then (start, mid) else (mid + 1, end_))
                  /\ snd (if bl then (start, mid) else (mid + 1, end_))
                     <= end_
                  /\ snd (if bl then (start, mid) else (mid + 1, end_))
                     - fst (if bl then (start, mid) else (mid + 1, end_))
                     < end_ - start)
        by (destruct bl; cbn [fst snd]; lia).
      destruct B as (B1 & B2 & B3 & B4 & B5).
      destruct (IH _ _ B1 B2) as (t & m & E & Run & Hr & Ht); [lia|].
      rewrite E. exists ([mid] ++ t), m. repeat split; try lia.
      * eapply loop_turns; [exact Lt| |exact Run].
        rewrite Eb. now destruct bl.
      * constructor; [lia|]. eapply Forall_impl; [|exact Ht].
        cbv beta. intros. lia.
    + apply Z.ltb_ge in Lt. assert (start = end_) by lia. subst end_.
      exists [], start. repeat split; auto; try lia.
      apply loop_leaves. lia.
Qed.

Hypothesis two_partitions : 2 <= num_partitions_ (range_base r).

(** When [values] is below the last boundary, [getPartitionId] is that one
    read followed by the loop on [0, P - 2]. *)
Lemma range_getPartitionId_below (fuel : nat) :
  below r values (num_partitions_ (range_base r) - 2) ->
  Range_getPartitionId_fuel fuel r values
  = let (t, res) := while_loop fuel r values 0
                      (num_partitions_ (range_base r) - 2) in
    ((num_partitions_ (range_base r) - 2) :: t, res).
Proof.
  intros (b & Eb & Lb). unfold Range_getPartitionId_fuel.
  rewrite (DCHECK_same_size r values values_size).
  rewrite (last_boundary r WF two_partitions),
    (last_partition r WF two_partitions).
  unfold lift, probe. rewrite Eb. cbn [rbind]. rewrite Lb.
  cbn [mbind negb].
  destruct (while_loop fuel r values 0 _). reflexivity.
Qed.

End LoopRuns.

(** C10.  In a range header with at least one boundary, [getPartitionId]
    comes to an answer, the same one for every bound on the number of turns
    from P - 2 up, and reads boundaries only at positions 0 .. P-2.  When
    [values] is not less than the last boundary it answers P - 1 after that
    one read.  Otherwise the loop runs from [start = 0], [end = P - 2], turn
    by turn of its body, until it leaves with [start = end], and that
    [start] is the answer.  From any [start <= end] within the boundaries
    the loop, given [end - start] turns or more, is such a run, leaves with
    [start = end] and reads only positions of [start, end).  Each turn,
    entered with [start < end], reads position [mid] with
    [start <= mid < end] and leaves [end = mid] when [values] is less than
    that boundary and [start = mid + 1] when it is not, so [end - start]
    goes down and stays non-negative. *)
Theorem range_search_terminates
    (PF : Platform) (r : RangePartitionSchemeHeader)
    (values : PartitionValues) :
  range_wf r ->
  2 <= num_partitions_ (range_base r) ->
  size values = size (partition_attribute_ids_ (range_base r)) ->
  (exists t pid,
     (forall fuel,
        (Z.to_nat (num_partitions_ (range_base r) - 2) <= fuel)%nat ->
        Range_getPartitionId_fuel fuel r values = (t, Ret pid)) /\
     getPartitionId (Range r) values = (t, Ret pid) /\
     Forall (fun i => 0 <= i <= num_partitions_ (range_base r) - 2) t /\
     (not_below r values (num_partitions_ (range_base r) - 2) ->
      t = [num_partitions_ (range_base r) - 2] /\
      pid = num_partitions_ (range_base r) - 1) /\
     (below r values (num_partitions_ (range_base r) - 2) ->
      exists t',
        t = (num_partitions_ (range_base r) - 2) :: t' /\
        loop_run r values 0 (num_partitions_ (range_base r) - 2)
                 t' pid pid)) /\
  (forall start end_,
     0 <= start <= end_ -> end_ <= num_partitions_ (range_base r) - 2 ->
     exists t m,
       loop_run r values start end_ t m m /\
       start <= m <= end_ /\
       Forall (fun i => start <= i < end_) t /\
       forall fuel, (Z.to_nat (end_ - start) <= fuel)%nat ->
         while_loop fuel r values start end_ = (t, Ret m)) /\
  (forall start end_,
     0 <= start < end_ -> end_ <= num_partitions_ (range_base r) - 2 ->
     exists mid bl start' end',
       probe r values mid = ([mid], Ret bl) /\
       loop_body r values start end_ = ([mid], Ret (start', end')) /\
       fst (loop_body r values start end_) = [mid] /\
       snd (loop_body r values start end_) = Ret (start', end') /\
       start <= mid < end_ /\
       (start', end') = (if bl then (start, mid) else (mid + 1, end_)) /\
       (start' = start /\ end' = mid \/ start' = mid + 1 /\ end' = end_) /\
       0 <= end' - start' < end_ - start).
Proof.
  intros WF HP Hv. pose proof (boundaries_count r WF HP) as Hc.
  split; [|split].
  - destruct (range_search r WF HP values Hv) as (t & pid & E & Ht & _).
    exists t, pid. split; [exact E|]. split; [|split; [exact Ht|split]].
    + cbn [getPartitionId]. apply E. unfold size in Hc. lia.
    + intros NB. pose proof (range_search_early r WF HP values Hv NB 
                               (Z.to_nat (num_partitions_ (range_base r) - 2)))
        as E'.
      rewrite E in E' by lia. now injection E' as -> ->.
    + intros B.
      destruct (while_loop_run r WF values Hv
                  (Z.to_nat (num_partitions_ (range_base r) - 2))
                  0 (num_partitions_ (range_base r) - 2))
        as (t' & m & W & Run & _); [lia|lia|lia|].
      pose proof (range_getPartitionId_below r WF values Hv HP
                    (Z.to_nat (num_partitions_ (range_base r) - 2)) B) as G.
      rewrite W in G. rewrite E in G by lia.
      injection G as Et Ep. subst t pid. exists t'. now split.
  - intros start end_ H1 H2.
    destruct (while_loop_run r WF values Hv (Z.to_nat (end_ - start))
                start end_) as (t & m & W & Run & Hr & Ht); [lia|lia|lia|].
    exists t, m. repeat split; try lia; [exact Run|exact Ht|].
    intros fuel Hf.
    exact (while_loop_more_fuel r values _ _ _ _ _ W fuel Hf).
  - intros start end_ H1 H2.
    destruct (loop_body_spec r WF values Hv start end_)
      as (mid & bl & _ & Hm & Ep & E); [lia|lia|].
    rewrite E. cbn [fst snd].
    destruct bl; [exists mid, true, start, mid
                 |exists mid, false, (mid + 1), end_];
      repeat split; try reflexivity; try exact Ep; lia.
Qed.

Lemma range_search_terminates_witness :
  range_wf three_ranges /\
  2 <= num_partitions_ (range_base three_ranges) /\
  size [15] = size (partition_attribute_ids_ (range_base three_ranges)) /\
  below three_ranges [15] (num_partitions_ (range_base three_ranges) - 2) /\
  exists t pid,
    (forall fuel,
       (Z.to_nat (num_partitions_ (range_base three_ranges) - 2) <= fuel)%nat ->
       Range_getPartitionId_fuel fuel three_ranges [15] = (t, Ret pid)) /\
    getPartitionId (Range three_ranges) [15] = (t, Ret pid) /\
    Forall (fun i => 0 <= i <= num_partitions_ (range_base three_ranges) - 2)
           t /\
    (not_below three_ranges [15]
               (num_partitions_ (range_base three_ranges) - 2) ->
     t = [num_partitions_ (range_base three_ranges) - 2] /\
     pid = num_partitions_ (range_base three_ranges) - 1) /\
    (below three_ranges [15]
           (num_partitions_ (range_base three_ranges) - 2) ->
     exists t',
       t = (num_partitions_ (range_base three_ranges) - 2) :: t' /\
       loop_run three_ranges [15] 0
                (num_partitions_ (range_base three_ranges) - 2) t' pid pid).
Proof.
  assert (HP : 2 <= num_partitions_ (range_base three_ranges)) by (cbn; lia).
  assert (B : below three_ranges [15]
                    (num_partitions_ (range_base three_ranges) - 2))
    by (exists [20]; split; reflexivity).
  refine (conj three_ranges_wf (conj HP (conj eq_refl (conj B _)))).
  exact (proj1 (range_search_terminates DebugInt three_ranges [15]
                  three_ranges_wf HP eq_refl)).
Defined.

(** ** The claims about the constructor *)

Section Validation.
Context `{PF : Platform}.

Lemma check_boundary_sizes_complete (r : RangePartitionSchemeHeader)
    (bs : list PartitionValues) :
  sizes_match (partition_attribute_ids_ (range_base r)) bs ->
  check_boundary_sizes r bs = Ret tt.
Proof.
  intros F. destruct (check_boundary_sizes_spec r bs) as [[E _]|[_ N]];
    [exact E|contradiction].
Qed.

Lemma check_ascending_complete (r : RangePartitionSchemeHeader) :
  ascending r ->
  forall n i, (1 <= i)%nat ->
    (i + n <= length (partition_range_boundaries_ r))%nat ->
    check_ascending r (seq i n) = Ret tt.
Proof.
  intros ASC. induction n as [|n IH]; intros i Hi Hn; [reflexivity|].
  cbn [seq check_ascending].
  destruct (vec_at_in_range (partition_range_boundaries_ r) (Z.of_nat i - 1))
    as [p Ep]; [unfold size; lia|].
  destruct (vec_at_in_range (partition_range_boundaries_ r) (Z.of_nat i))
    as [c Ec]; [unfold size; lia|].
  rewrite Ep, Ec. cbn [rbind].
  apply vec_at_inv in Ep as [_ Ep]. apply vec_at_inv in Ec as [_ Ec].
  replace (Z.to_nat (Z.of_nat i - 1)) with (i - 1)%nat in Ep by lia.
  replace (Z.to_nat (Z.of_nat i)) with (S (i - 1)) in Ec by lia.
  rewrite (ASC _ _ _ Ep Ec). cbn [rbind CHECK]. apply IH; lia.
Qed.

Lemma checkPartitionRangeBoundaries_complete (r : RangePartitionSchemeHeader) :
  sizes_match (partition_attribute_ids_ (range_base r))
              (partition_range_boundaries_ r) ->
  ascending r ->
  checkPartitionRangeBoundaries r = Ret tt.
Proof.
  intros F ASC. unfold checkPartitionRangeBoundaries.
  rewrite (check_boundary_sizes_complete r _ F). cbn [rbind].
  destruct (length (partition_range_boundaries_ r)) as [|n] eqn:Hn;
    [reflexivity|].
  apply check_ascending_complete; [exact ASC|lia|lia].
Qed.

Variable num_partitions : Z.
Variable attributes : PartitionAttributeIds.
Variable partition_attribute_types : list TypeRef.
Variable partition_ranges : list PartitionValues.

Let this : RangePartitionSchemeHeader :=
  mkRange (mkBase kRange num_partitions attributes)
          partition_attribute_types partition_ranges
          (map makeLess partition_attribute_types)
          (map makeEqual partition_attribute_types).

(** The constructor in a build with [QUICKSTEP_DEBUG]: it returns the
    object exactly when its [DCHECK]s and [checkPartitionRangeBoundaries]
    pass. *)
Lemma newRange_debug :
  QUICKSTEP_DEBUG = true ->
  newRangePartitionSchemeHeader num_partitions attributes
    partition_attribute_types partition_ranges
  = (_ <- DCHECK (size attributes =? size partition_attribute_types) ;;
     _ <- DCHECK (SizeT.sub num_partitions 1 =? size partition_ranges) ;;
     _ <- checkPartitionRangeBoundaries this ;;
     Ret this).
Proof.
  intros D. unfold newRangePartitionSchemeHeader. now rewrite D.
Qed.

(** C8.  In a build with [QUICKSTEP_DEBUG], a range header that the
    constructor returns has boundaries that all have one value per
    partitioning attribute and that are ascending, each [lessThan] the next
    (and, where the [DCHECK]s are compiled in, as many boundaries as
    partitions less one).  A boundary of another size makes the constructor
    fail a check, and so does, when there is one type per attribute, a pair
    of neighbouring boundaries out of order. *)
Theorem constructor_validates_boundaries :
  QUICKSTEP_DEBUG = true ->
  (forall r,
     newRangePartitionSchemeHeader num_partitions attributes
       partition_attribute_types partition_ranges = Ret r ->
     r = this /\
     sizes_match (partition_attribute_ids_ (range_base r))
                 (partition_range_boundaries_ r) /\
     ascending r /\
     (DCHECK_IS_ON = true ->
      size (partition_range_boundaries_ r)
      = SizeT.sub (num_partitions_ (range_base r)) 1)) /\
  (~ sizes_match attributes partition_ranges ->
   newRangePartitionSchemeHeader num_partitions attributes
     partition_attribute_types partition_ranges = Fault CheckFailed) /\
  (size partition_attribute_types = size attributes ->
   ~ ascending this ->
   newRangePartitionSchemeHeader num_partitions attributes
     partition_attribute_types partition_ranges = Fault CheckFailed).
Proof.
  intros D. rewrite (newRange_debug D).
  destruct (DCHECK_cases (size attributes =? size partition_attribute_types))
    as [E1|[E1 _]]; rewrite E1; cbn [rbind];
    [|repeat split; intros; try reflexivity; discriminate].
  destruct (DCHECK_cases (SizeT.sub num_partitions 1 =? size partition_ranges))
    as [E2|[E2 _]]; rewrite E2; cbn [rbind];
    [|repeat split; intros; try reflexivity; discriminate].
  split; [|split].
  - intros r E.
    destruct (checkPartitionRangeBoundaries this) as [[]|] eqn:C;
      [|discriminate].
    cbn [rbind] in E. injection E as <-.
    destruct (checkPartitionRangeBoundaries_sound this C) as [F A].
    repeat split; auto.
    intros On. apply (DCHECK_inv _ E2) in On. apply Z.eqb_eq in On.
    symmetry. exact On.
  - intros N. unfold checkPartitionRangeBoundaries.
    destruct (check_boundary_sizes_spec this partition_ranges)
      as [[_ F]|[E _]]; [contradiction|].
    cbn [partition_range_boundaries_ this]. now rewrite E.
  - intros Ht N.
    assert (L : forall f : TypeRef -> UncheckedComparator,
      length (map f partition_attribute_types) = length attributes).
    { intros f. rewrite length_map. unfold size in Ht. lia. }
    destruct (checkPartitionRangeBoundaries_cases this (L _) (L _))
      as [C|C]; [|now rewrite C].
    destruct (checkPartitionRangeBoundaries_sound this C) as [_ A].
    contradiction.
Qed.

(** A header returned by the constructor of a debug build, with glog's
    [DCHECK]s and [QUICKSTEP_DEBUG], is well formed and ascending. *)
Lemma validated_construction (r : RangePartitionSchemeHeader) :
  QUICKSTEP_DEBUG = true -> DCHECK_IS_ON = true ->
  SizeT.fits num_partitions -> SizeT.fits (size attributes) ->
  newRangePartitionSchemeHeader num_partitions attributes
    partition_attribute_types partition_ranges = Ret r ->
  range_wf r /\ ascending r.
Proof.
  intros D On FP Fk. rewrite (newRange_debug D).
  destruct (DCHECK (size attributes =? size partition_attribute_types))
    as [[]|] eqn:E1; [|discriminate].
  destruct (DCHECK (SizeT.sub num_partitions 1 =? size partition_ranges))
    as [[]|] eqn:E2; [|discriminate].
  destruct (checkPartitionRangeBoundaries this) as [[]|] eqn:C;
    [|discriminate].
  cbn [rbind]. intros [= <-].
  destruct (checkPartitionRangeBoundaries_sound this C) as [F A].
  apply (DCHECK_inv _ E1) in On as O1. apply (DCHECK_inv _ E2) in On as O2.
  apply Z.eqb_eq in O1, O2.
  split; [|exact A]. constructor; cbn; auto.
Qed.

End Validation.

Lemma constructor_validates_boundaries_witness :
  @QUICKSTEP_DEBUG DebugInt = true /\
  newRangePartitionSchemeHeader (PF := DebugInt) 3 [0] [tt] [[10]; [20]]
  = Ret three_ranges /\
  sizes_match (partition_attribute_ids_ (range_base three_ranges))
              (partition_range_boundaries_ three_ranges) /\
  ascending three_ranges.
Proof.
  refine (conj eq_refl (conj eq_refl _)).
  destruct (proj1 (constructor_validates_boundaries (PF := DebugInt)
                     3 [0] [tt] [[10]; [20]] eq_refl)
                  three_ranges eq_refl) as (_ & F & A & _).
  exact (conj F A).
Defined.

(** ** The claims about the hash header and about the range of the result *)

Section HashFacts.
Context `{PF : Platform}.

Lemma hash_getPartitionId_value (h : HashPartitionSchemeHeader)
    (values : PartitionValues) :
  num_partitions_ (hash_base h) <> 0 ->
  size values = size (partition_attribute_ids_ (hash_base h)) ->
  Hash_getPartitionId h values
  = ([], Ret (HashCompositeKey values mod num_partitions_ (hash_base h))).
Proof.
  intros HP Hv. unfold Hash_getPartitionId, DCHECK, CHECK.
  rewrite Hv, Z.eqb_refl.
  apply Z.eqb_neq in HP. rewrite HP.
  now destruct DCHECK_IS_ON.
Qed.

(** C5.  A hash header with at least one partition sends a tuple with one
    value per partitioning attribute to partition
    [HashCompositeKey(values) % num_partitions], reading no boundary; equal
    tuples get equal answers; with four partitions, a tuple whose composite
    hash is 23 goes to partition 3. *)
Theorem hash_getPartitionId_is_hash_mod
    (h : HashPartitionSchemeHeader) (values : PartitionValues) :
  1 <= num_partitions_ (hash_base h) ->
  size values = size (partition_attribute_ids_ (hash_base h)) ->
  getPartitionId (Hash h) values
  = ([], Ret (HashCompositeKey values mod num_partitions_ (hash_base h))) /\
  (forall values', values' = values ->
     getPartitionId (Hash h) values' = getPartitionId (Hash h) values) /\
  (num_partitions_ (hash_base h) = 4 -> HashCompositeKey values = 23 ->
   snd (getPartitionId (Hash h) values) = Ret 3).
Proof.
  intros HP Hv. cbn [getPartitionId].
  rewrite (hash_getPartitionId_value h values) by (auto; lia).
  split; [reflexivity|split].
  - intros values' ->. apply hash_getPartitionId_value; auto; lia.
  - intros -> ->. reflexivity.
Qed.

(** The result lies in [0, P) for a hash header with P >= 1 partitions. *)
Lemma hash_getPartitionId_in_range (h : HashPartitionSchemeHeader)
    (values : PartitionValues) :
  1 <= num_partitions_ (hash_base h) ->
  size values = size (partition_attribute_ids_ (hash_base h)) ->
  exists pid, getPartitionId (Hash h) values = ([], Ret pid) /\
              0 <= pid < num_partitions_ (hash_base h).
Proof.
  intros HP Hv. eexists. split.
  - cbn [getPartitionId]. apply hash_getPartitionId_value; auto. lia.
  - apply Z.mod_pos_bound. lia.
Qed.

(** And for a range header with P >= 2 partitions. *)
Lemma range_getPartitionId_in_range (r : RangePartitionSchemeHeader)
    (values : PartitionValues) :
  range_wf r -> 2 <= num_partitions_ (range_base r) ->
  size values = size (partition_attribute_ids_ (range_base r)) ->
  exists t pid, getPartitionId (Range r) values = (t, Ret pid) /\
                0 <= pid < num_partitions_ (range_base r).
Proof.
  intros WF HP Hv.
  destruct (range_getPartitionId_search r WF HP values Hv)
    as (t & pid & E & _ & Hr & _).
  exists t, pid. split; [exact E|lia].
Qed.

(** C7.  With one partition, a hash header sends every tuple of the right
    size to partition 0.  A range header with one partition has no boundary:
    [getPartitionId] computes [end = size() - 1], which wraps around to
    [2^64 - 1], and reads [partition_range_boundaries_[end]], outside the
    empty vector, instead of answering 0 without a read. *)
Theorem single_partition_hash_and_range :
  (forall (h : HashPartitionSchemeHeader) (values : PartitionValues),
     num_partitions_ (hash_base h) = 1 ->
     size values = size (partition_attribute_ids_ (hash_base h)) ->
     getPartitionId (Hash h) values = ([], Ret 0)) /\
  (forall (r : RangePartitionSchemeHeader) (values : PartitionValues),
     partition_range_boundaries_ r = [] ->
     size values = size (partition_attribute_ids_ (range_base r)) ->
     getPartitionId (Range r) values
     = ([SizeT.modulus - 1], Fault OutOfRange)).
Proof.
  split.
  - intros h values HP Hv. cbn [getPartitionId].
    rewrite (hash_getPartitionId_value h values) by (auto; lia).
    rewrite HP. now rewrite Z.mod_1_r.
  - intros r values Hb Hv. cbn [getPartitionId].
    unfold Range_getPartitionId, Range_getPartitionId_fuel, DCHECK, CHECK,
      probe.
    rewrite Hv, Z.eqb_refl, Hb.
    change (SizeT.sub (size (@nil PartitionValues)) 1)
      with (SizeT.modulus - 1).
    rewrite vec_at_out_of_range by (unfold size; cbn [length]; lia).
    now destruct DCHECK_IS_ON.
Qed.

End HashFacts.

Lemma hash_getPartitionId_is_hash_mod_witness :
  1 <= num_partitions_ (hash_base four_hashes) /\
  size [7] = size (partition_attribute_ids_ (hash_base four_hashes)) /\
  num_partitions_ (hash_base four_hashes) = 4 /\
  @HashCompositeKey DebugInt [7] = 23 /\
  snd (getPartitionId (PF := DebugInt) (Hash four_hashes) [7]) = Ret 3.
Proof.
  assert (HP : 1 <= num_partitions_ (hash_base four_hashes)) by (cbn; lia).
  refine (conj HP (conj eq_refl (conj eq_refl (conj eq_refl _)))).
  exact (proj2 (proj2 (hash_getPartitionId_is_hash_mod (PF := DebugInt)
                         four_hashes [7] HP eq_refl)) eq_refl eq_refl).
Defined.

Lemma single_partition_hash_and_range_witness :
  partition_range_boundaries_ single_range = [] /\
  size [5] = size (partition_attribute_ids_ (range_base single_range)) /\
  getPartitionId (Range single_range) [5]
  = ([18446744073709551615], Fault OutOfRange).
Proof.
  refine (conj eq_refl (conj eq_refl _)).
  exact (proj2 (single_partition_hash_and_range (PF := DebugInt))
           single_range [5] eq_refl eq_refl).
Defined.

(** C6.  The constructor of a debug build accepts one partition, one
    attribute and no boundary; on the header it returns, [getPartitionId]
    gives no partition id for the tuple [5]: it reads outside the vector of
    boundaries. *)
Theorem single_range_has_no_partition_id :
  newRangePartitionSchemeHeader (PF := DebugInt) 1 [0] [tt] []
  = Ret single_range /\
  1 <= getNumPartitions (Range single_range) /\
  size [5] = size (getPartitionAttributeIds (Range single_range)) /\
  snd (getPartitionId (Range single_range) [5]) = Fault OutOfRange /\
  ~ exists pid,
      snd (getPartitionId (Range single_range) [5]) = Ret pid /\
      0 <= pid < getNumPartitions (Range single_range).
Proof.
  split; [reflexivity|]. split; [cbn; lia|]. split; [reflexivity|].
  split; [reflexivity|]. intros (pid & E & _). discriminate.
Qed.

(** ** The claim about serialization *)

Section RoundTrip.
Context `{PF : Platform}.

Lemma size_not_zero {A : Type} (v : list A) : v <> [] -> (size v =? 0) = false.
Proof.
  intros N. apply Z.eqb_neq. destruct v; [congruence|].
  unfold size. cbn [length]. lia.
Qed.

Lemma hash_round_trip (h : HashPartitionSchemeHeader) :
  valid_descriptor (Hash h) ->
  ReconstructFromProto (getProto (Hash h)) = Ret (Hash h).
Proof.
  destruct h as [[ty P ids]]. unfold valid_descriptor.
  cbn. intros (HP & Hids & ->).
  unfold ReconstructFromProto, ProtoIsValid. cbn.
  rewrite (size_not_zero ids Hids).
  replace (1 <=? P) with true by (symmetry; apply Z.leb_le; lia).
  reflexivity.
Qed.

Lemma range_proto_valid (r : RangePartitionSchemeHeader) :
  valid_descriptor (Range r) -> ProtoIsValid (getProto (Range r)) = true.
Proof.
  unfold valid_descriptor, getNumPartitions, getPartitionAttributeIds, base_of.
  intros (HP & Hids & Tag & WF & _).
  unfold ProtoIsValid, getProto.
  cbn [proto_partition_type proto_num_partitions proto_partition_attribute_ids
       proto_partition_attr_types proto_partition_range_boundaries].
  rewrite Tag, (size_not_zero _ Hids).
  replace (1 <=? num_partitions_ (range_base r)) with true
    by (symmetry; apply Z.leb_le; lia).
  rewrite (wf_types r WF), Z.eqb_refl.
  assert (C : size (partition_range_boundaries_ r)
              = num_partitions_ (range_base r) - 1).
  { rewrite (wf_count r WF). unfold SizeT.sub. apply wrap_small.
    pose proof (wf_num_fit r WF) as F. unfold SizeT.fits in *. lia. }
  rewrite C, Z.eqb_refl. cbn [andb negb].
  apply forallb_forall. intros b Hb. apply Z.eqb_eq.
  pose proof (wf_sizes r WF) as F. rewrite Forall_forall in F. now apply F.
Qed.

Lemma range_round_trip (r : RangePartitionSchemeHeader) :
  valid_descriptor (Range r) ->
  ReconstructFromProto (getProto (Range r)) = Ret (Range r).
Proof.
  intros V. unfold ReconstructFromProto.
  rewrite (range_proto_valid r V). cbn [CHECK rbind].
  unfold valid_descriptor, getNumPartitions, getPartitionAttributeIds,
    base_of in V.
  destruct V as (HP & Hids & Tag & WF & ASC).
  pose proof (wf_types r WF) as Ht. pose proof (wf_count r WF) as Hc.
  pose proof (wf_less r WF) as Hl. pose proof (wf_equal r WF) as He.
  pose proof (wf_sizes r WF) as Hs.
  destruct r as [[ty P ids] tys bnds lts eqs]. cbn in *. subst ty lts eqs.
  unfold newRangePartitionSchemeHeader, DCHECK, CHECK.
  rewrite Ht, Hc, !Z.eqb_refl.
  assert (K : checkPartitionRangeBoundaries
                (mkRange (mkBase kRange P ids) tys bnds
                         (map makeLess tys) (map makeEqual tys)) = Ret tt)
    by (apply checkPartitionRangeBoundaries_complete; assumption).
  destruct DCHECK_IS_ON, QUICKSTEP_DEBUG; cbn [rbind]; rewrite ?K;
    reflexivity.
Qed.

(** C9.  Reconstructing a valid descriptor from its own serialization gives
    a descriptor with the same partition of every tuple, the same partition
    type, the same number of partitions and the same partitioning
    attributes. *)
Theorem reconstruct_getProto (d : PartitionSchemeHeader) :
  valid_descriptor d ->
  exists d',
    ReconstructFromProto (getProto d) = Ret d' /\
    (forall values, getPartitionId d' values = getPartitionId d values) /\
    getPartitionType d' = getPartitionType d /\
    getNumPartitions d' = getNumPartitions d /\
    getPartitionAttributeIds d' = getPartitionAttributeIds d.
Proof.
  intros V. exists d. split; [|repeat split].
  destruct d as [h|r]; [now apply hash_round_trip|now apply range_round_trip].
Qed.

End RoundTrip.

Lemma three_ranges_valid : valid_descriptor (Range three_ranges).
Proof.
  split; [cbn; lia|]. split; [discriminate|].
  split; [reflexivity|].
  exact (conj three_ranges_wf three_ranges_ascending).
Qed.

Lemma reconstruct_getProto_witness :
  valid_descriptor (Range three_ranges) /\
  exists d',
    ReconstructFromProto (getProto (Range three_ranges)) = Ret d' /\
    (forall values,
       getPartitionId d' values = getPartitionId (Range three_ranges) values) /\
    getPartitionType d' = getPartitionType (Range three_ranges) /\
    getNumPartitions d' = getNumPartitions (Range three_ranges) /\
    getPartitionAttributeIds d'
    = getPartitionAttributeIds (Range three_ranges).
Proof.
  refine (conj three_ranges_valid _).
  exact (reconstruct_getProto (PF := DebugInt) (Range three_ranges)
           three_ranges_valid).
Defined.

(** ** Further properties of [lessThan] *)

Lemma int_equivalence (dchecks debug : bool) :
  EquivalenceComparators (IntPlatform dchecks debug).
Proof.
  constructor; cbn [makeEqual IntPlatform]; intros _ a.
  - apply Z.eqb_refl.
  - intros b E. apply Z.eqb_eq in E. apply Z.eqb_eq. lia.
Qed.

Section StrictOrder.
Context `{PF : Platform} {CC : ConsistentComparators PF}
        {EC : EquivalenceComparators PF}.

Lemma all_equal_refl (ts : list TypeRef) : forall v : PartitionValues,
  length v = length ts -> all_equal ts v v = true.
Proof.
  induction ts as [|t ts IH]; intros [|x v] L; cbn [length] in L; try lia;
    [reflexivity|].
  cbn [all_equal]. rewrite equal_refl. cbn [andb]. apply IH. lia.
Qed.

Lemma all_equal_sym (ts : list TypeRef) : forall v w : PartitionValues,
  all_equal ts v w = true -> all_equal ts w v = true.
Proof.
  induction ts as [|t ts IH]; intros [|x v] [|y w];
    cbn [all_equal]; try discriminate; auto.
  intros H. apply andb_true_iff in H as [E H].
  now rewrite (equal_sym t x y E), (IH _ _ H).
Qed.

(** Tuples that are equal at every position compare alike with a third. *)
Lemma lex_equal_cong (ts : list TypeRef) : forall v w c : PartitionValues,
  all_equal ts v w = true -> lex ts v c = lex ts w c.
Proof.
  intros v w c H. pose proof (all_equal_sym _ _ _ H) as H'.
  destruct (lex ts w c) eqn:Lw.
  - exact (lex_equal_left ts v w c H Lw).
  - destruct (lex ts v c) eqn:Lv; [|reflexivity].
    rewrite (lex_equal_left ts w v c H' Lv) in Lw. discriminate.
Qed.

(** X1.  On tuples with one value per partitioning attribute (at least one
    attribute), [lessThan] is a strict order: no tuple is less than itself,
    two tuples are never less than each other, and it is transitive. *)
Theorem lessThan_strict_order
    (r : RangePartitionSchemeHeader) (a b c : PartitionValues) :
  range_wf r ->
  partition_attribute_ids_ (range_base r) <> [] ->
  size a = size (partition_attribute_ids_ (range_base r)) ->
  size b = size (partition_attribute_ids_ (range_base r)) ->
  size c = size (partition_attribute_ids_ (range_base r)) ->
  lessThan r a a = Ret false /\
  (lessThan r a b = Ret true -> lessThan r b a = Ret false) /\
  (lessThan r a b = Ret true -> lessThan r b c = Ret true ->
   lessThan r a c = Ret true).
Proof.
  intros WF Hids Ha Hb Hc.
  assert (Hk : (1 <= length (partition_attribute_ids_ (range_base r)))%nat).
  { destruct (partition_attribute_ids_ (range_base r)); [congruence|].
    cbn [length]. lia. }
  pose proof (wf_types_length r WF) as Ht.
  assert (Irr : lessThan r a a = Ret false).
  { rewrite (lessThan_lex r WF) by auto. f_equal.
    apply lex_equal_irrefl, all_equal_refl. unfold size in Ha. lia. }
  split; [exact Irr|split].
  - intros Lab. destruct (lessThan_total r WF b a Hb Ha) as [[|] Lba];
      [|exact Lba].
    pose proof (lessThan_trans r WF a b a Ha Hb Ha Lab Lba). congruence.
  - apply (lessThan_trans r WF); assumption.
Qed.

(** X2.  In a well-formed header whose boundaries are ascending, each one
    [lessThan] the next, every boundary is [lessThan] every later one. *)
Theorem ascending_pairwise
    (r : RangePartitionSchemeHeader) (i j : nat) (b1 b2 : PartitionValues) :
  range_wf r -> ascending r ->
  (i < j)%nat ->
  nth_error (partition_range_boundaries_ r) i = Some b1 ->
  nth_error (partition_range_boundaries_ r) j = Some b2 ->
  lessThan r b1 b2 = Ret true.
Proof.
  intros WF ASC Hij N1. revert b2.
  assert (S1 : size b1 = size (partition_attribute_ids_ (range_base r))).
  { pose proof (wf_sizes r WF) as F. rewrite Forall_forall in F.
    eapply F, nth_error_In, N1. }
  replace j with (S i + (j - S i))%nat by lia.
  induction (j - S i)%nat as [|n IH]; intros b2 N2.
  - rewrite Nat.add_0_r in N2. exact (ASC _ _ _ N1 N2).
  - destruct (nth_error (partition_range_boundaries_ r) (S i + n)) as [m|] eqn:Nm.
    + pose proof (wf_sizes r WF) as F. rewrite Forall_forall in F.
      apply (lessThan_trans r WF b1 m b2); auto.
      * eapply F, nth_error_In, Nm.
      * eapply F, nth_error_In, N2.
      * apply (ASC (S i + n)%nat); [exact Nm|].
        now replace (S (S i + n)) with (S i + S n)%nat by lia.
    + apply nth_error_None in Nm.
      assert (S i + S n < length (partition_range_boundaries_ r))%nat
        by (apply nth_error_Some; congruence).
      lia.
Qed.

End StrictOrder.

Lemma lessThan_strict_order_witness :
  range_wf three_ranges /\
  partition_attribute_ids_ (range_base three_ranges) <> [] /\
  size [5] = size (partition_attribute_ids_ (range_base three_ranges)) /\
  size [7] = size (partition_attribute_ids_ (range_base three_ranges)) /\
  size [9] = size (partition_attribute_ids_ (range_base three_ranges)) /\
  lessThan three_ranges [5] [7] = Ret true /\
  lessThan three_ranges [7] [9] = Ret true /\
  lessThan three_ranges [5] [5] = Ret false /\
  lessThan three_ranges [7] [5] = Ret false /\
  lessThan three_ranges [5] [9] = Ret true.
Proof.
  assert (Hids : partition_attribute_ids_ (range_base three_ranges) <> [])
    by discriminate.
  destruct (lessThan_strict_order (CC := int_consistent true true)
              (EC := int_equivalence true true) three_ranges [5] [7] [9]
              three_ranges_wf Hids eq_refl eq_refl eq_refl)
    as (Irr & Asym & Trans).
  exact (conj three_ranges_wf (conj Hids (conj eq_refl (conj eq_refl
          (conj eq_refl (conj eq_refl (conj eq_refl (conj Irr
            (conj (Asym eq_refl) (Trans eq_refl eq_refl)))))))))).
Defined.

Lemma four_ranges_wf : range_wf four_ranges.
Proof.
  constructor; try reflexivity; try (split; [discriminate|reflexivity]).
  repeat constructor.
Qed.

Lemma four_ranges_ascending : ascending four_ranges.
Proof.
  intros [|[|[|j]]] b1 b2 N1 N2; cbn in N1, N2.
  - injection N1 as <-. injection N2 as <-. reflexivity.
  - injection N1 as <-. injection N2 as <-. reflexivity.
  - discriminate.
  - destruct j; discriminate.
Qed.

Lemma ascending_pairwise_witness :
  range_wf four_ranges /\ ascending four_ranges /\ (0 < 2)%nat /\
  nth_error (partition_range_boundaries_ four_ranges) 0 = Some [10] /\
  nth_error (partition_range_boundaries_ four_ranges) 2 = Some [30] /\
  lessThan four_ranges [10] [30] = Ret true.
Proof.
  refine (conj four_ranges_wf (conj four_ranges_ascending
           (conj Nat.lt_0_2 (conj eq_refl (conj eq_refl _))))).
  exact (ascending_pairwise (CC := int_consistent true true)
           four_ranges 0 2 [10] [30] four_ranges_wf four_ranges_ascending
           Nat.lt_0_2 eq_refl eq_refl).
Defined.

(** ** Further properties of the search *)

Section SearchProperties.
Context `{PF : Platform}.
Variable r : RangePartitionSchemeHeader.
Hypothesis WF : range_wf r.
Hypothesis two_partitions : 2 <= num_partitions_ (range_base r).
Variable values : PartitionValues.
Hypothesis values_size :
  size values = size (partition_attribute_ids_ (range_base r)).

Let P := num_partitions_ (range_base r).

(** The run of [getPartitionId]: the last boundary is read first; then
    either the answer is [P - 1] or the loop runs on [0, P - 2]. *)
Lemma range_getPartitionId_run :
  exists bl,
    probe r values (P - 2) = ([P - 2], Ret bl) /\
    Range_getPartitionId r values
    = if bl then
        let (t, res) := while_loop (length (partition_range_boundaries_ r))
                                   r values 0 (P - 2) in
        ((P - 2) :: t, res)
      else ([P - 2], Ret (P - 1)).
Proof.
  pose proof (boundaries_count r WF two_partitions) as Hc.
  destruct (probe_total r WF values values_size (P - 2)) as [bl Ep];
    [fold P in two_partitions; fold P in Hc; lia|].
  exists bl. split; [exact Ep|].
  unfold Range_getPartitionId, Range_getPartitionId_fuel.
  rewrite (DCHECK_same_size r values values_size).
  rewrite (last_boundary r WF two_partitions),
    (last_partition r WF two_partitions).
  fold P. unfold lift. cbn [mbind]. rewrite Ep. cbn [mbind].
  destruct bl; cbn [negb]; [|reflexivity].
  destruct (while_loop _ r values 0 (P - 2)). reflexivity.
Qed.

(** Each turn of the loop at least halves [end - start]. *)
Lemma while_loop_reads (fuel : nat) : forall (start end_ : Z) t res,
  0 <= start <= end_ -> end_ < size (partition_range_boundaries_ r) ->
  while_loop fuel r values start end_ = (t, res) ->
  t = [] \/ 2 ^ (Z.of_nat (length t) - 1) <= end_ - start.
Proof.
  induction fuel as [|fuel IH]; intros start end_ t res H1 H2 E.
  - left. cbn [while_loop] in E. destruct (start <? end_); now injection E.
  - cbn [while_loop] in E. destruct (start <? end_) eqn:Lt;
      [|left; now injection E].
    apply Z.ltb_lt in Lt.
    destruct (loop_body_spec r WF values values_size start end_)
      as (mid & bl & Hmid & Hm & _ & Eb); [lia|lia|].
    rewrite Eb in E. cbn [mbind] in E.
    destruct (while_loop fuel r values
                (fst (if bl then (start, mid) else (mid + 1, end_)))
                (snd (if bl then (start, mid) else (mid + 1, end_))))
      as [t1 res1] eqn:E1.
    injection E as <- <-. right. cbn [app length].
    assert (Half : snd (if bl then (start, mid) else (mid + 1, end_))
                   - fst (if bl then (start, mid) else (mid + 1, end_))
                   <= (end_ - start) / 2).
    { destruct bl; cbn [fst snd]; subst mid; [lia|].
      pose proof (Z.div_mod (end_ - start) 2 ltac:(lia)).
      pose proof (Z.mod_pos_bound (end_ - start) 2 ltac:(lia)). lia. }
    assert (Two : 2 * ((end_ - start) / 2) <= end_ - start).
    { pose proof (Z.div_mod (end_ - start) 2 ltac:(lia)).
      pose proof (Z.mod_pos_bound (end_ - start) 2 ltac:(lia)). lia. }
    assert (B1 : 0 <= fst (if bl then (start, mid) else (mid + 1, end_))
                 <= snd (if bl then (start, mid) else (mid + 1, end_)))
      by (destruct bl; cbn [fst snd]; lia).
    assert (B2 : snd (if bl then (start, mid) else (mid + 1, end_))
                 < size (partition_range_boundaries_ r))
      by (destruct bl; cbn [fst snd]; lia).
    destruct (IH _ _ t1 res1 B1 B2 E1) as [->|Hpow].
    + cbn [length]. change (2 ^ (Z.of_nat 1 - 1)) with 1. lia.
    + destruct t1 as [|x t1]; [cbn in *; lia|].
      replace (Z.of_nat (S (length (x :: t1))) - 1)
        with (Z.succ (Z.of_nat (length (x :: t1)) - 1))
        by (cbn [length]; lia).
      rewrite Z.pow_succ_r by (cbn [length]; lia). lia.
Qed.

(** X3.  [getPartitionId] reads the last boundary first and reads at most
    [1 + ceil(log2(P - 1))] boundaries in all. *)
Theorem range_getPartitionId_reads :
  exists t pid,
    getPartitionId (Range r) values = ((P - 2) :: t, Ret pid) /\
    Z.of_nat (length ((P - 2) :: t)) <= 1 + Z.log2_up (P - 1).
Proof.
  pose proof (boundaries_count r WF two_partitions) as Hc. fold P in Hc.
  fold P in two_partitions.
  destruct (range_getPartitionId_search r WF two_partitions values values_size)
    as (t0 & pid & E & _).
  destruct range_getPartitionId_run as (bl & _ & Run).
  cbn [getPartitionId]. rewrite E in Run.
  assert (L : 0 <= Z.log2_up (P - 1)) by apply Z.log2_up_nonneg.
  destruct bl.
  - destruct (while_loop _ r values 0 (P - 2)) as [t res] eqn:W.
    injection Run as Et Er. subst t0 res. exists t, pid. split; [exact E|].
    assert (B1 : 0 <= 0 <= P - 2) by lia.
    assert (B2 : P - 2 < size (partition_range_boundaries_ r)) by lia.
    destruct (while_loop_reads _ 0 (P - 2) t (Ret pid) B1 B2 W)
      as [->|Hpow]; [cbn [length]; lia|].
    cbn [length]. destruct t as [|x t]; [cbn [length]; lia|].
    assert (Z.of_nat (length (x :: t)) - 1 < Z.log2_up (P - 1)).
    { apply Z.log2_up_lt_pow2; lia. }
    lia.
  - injection Run as Et Er. subst t0 pid. exists [], (P - 1).
    split; [exact E|]. cbn [length]. lia.
Qed.

(** X4.  Whatever the order of the boundaries, the answer [pid] sits where
    [values] changes sides: [values] is not less than boundary [pid - 1]
    (when [pid > 0]) and is less than boundary [pid] (when [pid < P - 1]);
    and the answer is the last partition exactly when [values] is not less
    than the last boundary. *)
Theorem range_getPartitionId_crossing :
  exists pid,
    snd (getPartitionId (Range r) values) = Ret pid /\
    0 <= pid <= P - 1 /\
    (0 < pid -> not_below r values (pid - 1)) /\
    (pid < P - 1 -> below r values pid) /\
    (pid = P - 1 <-> not_below r values (P - 2)).
Proof.
  fold P in two_partitions.
  destruct (range_getPartitionId_search r WF two_partitions values values_size)
    as (t & pid & E & _ & Hr & Lo & Hi).
  fold P in Hr, Hi. exists pid. cbn [getPartitionId]. rewrite E.
  split; [reflexivity|]. split; [exact Hr|].
  split; [|split; [|split]].
  - intros Hp. destruct Lo as [->|Lo]; [lia|exact Lo].
  - intros Hp. destruct Hi as [->|Hi]; [lia|exact Hi].
  - intros ->. destruct Lo as [Z0|Lo]; [lia|].
    now replace (P - 1 - 1) with (P - 2) in Lo by lia.
  - intros NB.
    pose proof (range_search_early r WF two_partitions values values_size NB
                  (length (partition_range_boundaries_ r))) as E'.
    fold P in E'. unfold Range_getPartitionId in E. rewrite E in E'.
    now injection E'.
Qed.

End SearchProperties.

Lemma range_getPartitionId_reads_witness :
  range_wf four_ranges /\
  2 <= num_partitions_ (range_base four_ranges) /\
  size [15] = size (partition_attribute_ids_ (range_base four_ranges)) /\
  exists t pid,
    getPartitionId (Range four_ranges) [15]
    = ((num_partitions_ (range_base four_ranges) - 2) :: t, Ret pid) /\
    Z.of_nat (length ((num_partitions_ (range_base four_ranges) - 2) :: t))
    <= 1 + Z.log2_up (num_partitions_ (range_base four_ranges) - 1).
Proof.
  assert (HP : 2 <= num_partitions_ (range_base four_ranges)) by (cbn; lia).
  refine (conj four_ranges_wf (conj HP (conj eq_refl _))).
  exact (range_getPartitionId_reads (PF := DebugInt) four_ranges
           four_ranges_wf HP [15] eq_refl).
Defined.

Lemma range_getPartitionId_crossing_witness :
  range_wf four_ranges /\
  2 <= num_partitions_ (range_base four_ranges) /\
  size [15] = size (partition_attribute_ids_ (range_base four_ranges)) /\
  exists pid,
    snd (getPartitionId (Range four_ranges) [15]) = Ret pid /\
    0 <= pid <= num_partitions_ (range_base four_ranges) - 1 /\
    (0 < pid -> not_below four_ranges [15] (pid - 1)) /\
    (pid < num_partitions_ (range_base four_ranges) - 1 ->
     below four_ranges [15] pid) /\
    (pid = num_partitions_ (range_base four_ranges) - 1 <->
     not_below four_ranges [15]
               (num_partitions_ (range_base four_ranges) - 2)).
Proof.
  assert (HP : 2 <= num_partitions_ (range_base four_ranges)) by (cbn; lia).
  refine (conj four_ranges_wf (conj HP (conj eq_refl _))).
  exact (range_getPartitionId_crossing (PF := DebugInt) four_ranges
           four_ranges_wf HP [15] eq_refl).
Defined.

(** ** The search and the scan from the first boundary *)

Section LinearScan.
Context `{PF : Platform}.
Variable r : RangePartitionSchemeHeader.

Lemma first_below_le (values : PartitionValues) (bs : list PartitionValues) :
  (first_below r values bs <= length bs)%nat.
Proof.
  induction bs as [|b bs IH]; cbn [first_below length]; [lia|].
  destruct (lessThan r values b) as [[|]|]; lia.
Qed.

Lemma first_below_hit (values : PartitionValues) :
  forall bs : list PartitionValues,
    (first_below r values bs < length bs)%nat ->
    exists b, nth_error bs (first_below r values bs) = Some b /\
              lessThan r values b = Ret true.
Proof.
  induction bs as [|b bs IH]; cbn [first_below length]; [lia|].
  destruct (lessThan r values b) as [[|]|] eqn:L; intros H.
  - exists b. now split.
  - apply IH. lia.
  - apply IH. lia.
Qed.

Lemma first_below_before (values : PartitionValues) :
  forall (bs : list PartitionValues) (i : nat),
    (i < first_below r values bs)%nat ->
    exists b, nth_error bs i = Some b /\ lessThan r values b <> Ret true.
Proof.
  induction bs as [|b bs IH]; cbn [first_below]; intros i Hi; [lia|].
  destruct (lessThan r values b) as [[|]|] eqn:L; try lia;
    (destruct i as [|i];
     [exists b; split; [reflexivity|congruence]|apply IH; lia]).
Qed.

Lemma first_below_ext (v w : PartitionValues) :
  forall bs : list PartitionValues,
    (forall b, In b bs -> lessThan r v b = lessThan r w b) ->
    first_below r v bs = first_below r w bs.
Proof.
  induction bs as [|b bs IH]; intros H; [reflexivity|].
  cbn [first_below]. rewrite (H b (or_introl eq_refl)).
  rewrite IH; [reflexivity|]. intros b' Hb'. apply H. now right.
Qed.

Hypothesis WF : range_wf r.
Hypothesis two_partitions : 2 <= num_partitions_ (range_base r).
Hypothesis ASC : ascending r.
Context {CC : ConsistentComparators PF}.

(** The search against the scan. *)
Lemma range_search_is_scan (values : PartitionValues) :
  size values = size (partition_attribute_ids_ (range_base r)) ->
  snd (getPartitionId (Range r) values)
  = Ret (Z.of_nat (first_below r values (partition_range_boundaries_ r))).
Proof.
  intros Hv. pose proof (boundaries_count r WF two_partitions) as Hc.
  pose proof (first_below_le values (partition_range_boundaries_ r)) as Le.
  unfold size in Hc.
  cbn [getPartitionId].
  destruct (range_getPartitionId_unique r WF two_partitions ASC values
              (Z.of_nat (first_below r values (partition_range_boundaries_ r)))
              Hv) as [t E]; [lia| | |now rewrite E].
  - destruct (first_below r values (partition_range_boundaries_ r))
      as [|n] eqn:Fn; [now left|right].
    destruct (first_below_before values (partition_range_boundaries_ r) n)
      as (b & Nb & Lb); [lia|].
    exists b.
    replace (Z.of_nat (S n) - 1) with (Z.of_nat n) by lia.
    pose proof (vec_at_nth _ _ _ Nb) as Eb.
    split; [exact Eb|].
    destruct (lessThan_total r WF values b Hv (boundary_size r WF _ _ Eb))
      as [[|] L]; [contradiction|exact L].
  - destruct (Nat.eq_dec (first_below r values (partition_range_boundaries_ r))
                (length (partition_range_boundaries_ r))) as [Eq|Ne].
    + left. lia.
    + right.
      destruct (first_below_hit values (partition_range_boundaries_ r))
        as (b & Nb & Lb); [lia|].
      exists b. split; [now apply vec_at_nth|exact Lb].
Qed.


(** X5.  With ascending boundaries, the binary search of [getPartitionId]
    answers what a scan from the first boundary would: the position of the
    first boundary that [values] is less than, or the number of boundaries
    when there is none. *)
Theorem range_getPartitionId_is_first_below (values : PartitionValues) :
  size values = size (partition_attribute_ids_ (range_base r)) ->
  snd (getPartitionId (Range r) values)
  = Ret (Z.of_nat (first_below r values (partition_range_boundaries_ r))).
Proof. exact (range_search_is_scan values). Qed.

Context {EC : EquivalenceComparators PF}.

(** X6.  With ascending boundaries, two tuples that are equal at every
    position, by the equality comparators of the header, go to the same
    partition. *)
Theorem range_getPartitionId_equal_tuples (v w : PartitionValues) :
  size v = size (partition_attribute_ids_ (range_base r)) ->
  size w = size (partition_attribute_ids_ (range_base r)) ->
  (forall i, (i < length (partition_attribute_ids_ (range_base r)))%nat ->
     holds_at (equal_unchecked_comparators_ r) v w i = true) ->
  snd (getPartitionId (Range r) v) = snd (getPartitionId (Range r) w).
Proof.
  intros Hv Hw Hall.
  rewrite !range_search_is_scan by assumption.
  do 2 f_equal. apply first_below_ext. intros b Hb.
  assert (Sb : size b = size (partition_attribute_ids_ (range_base r))).
  { pose proof (wf_sizes r WF) as F. rewrite Forall_forall in F. now apply F. }
  pose proof (wf_types_length r WF) as Ht.
  destruct (length (partition_attribute_ids_ (range_base r))) eqn:Hk.
  - now rewrite !(lessThan_no_attribute r) by auto.
  - rewrite !(lessThan_lex r WF) by (auto; lia). f_equal.
    apply lex_equal_cong.
    rewrite (wf_equal r WF) in Hall. unfold size in Hv, Hw.
    apply all_positions_equal; try lia.
    intros i Hi. apply Hall. lia.
Qed.

End LinearScan.

Lemma range_getPartitionId_is_first_below_witness :
  range_wf four_ranges /\
  2 <= num_partitions_ (range_base four_ranges) /\
  ascending four_ranges /\
  size [25] = size (partition_attribute_ids_ (range_base four_ranges)) /\
  snd (getPartitionId (Range four_ranges) [25])
  = Ret (Z.of_nat (first_below four_ranges [25]
                      (partition_range_boundaries_ four_ranges))).
Proof.
  assert (HP : 2 <= num_partitions_ (range_base four_ranges)) by (cbn; lia).
  refine (conj four_ranges_wf (conj HP (conj four_ranges_ascending
           (conj eq_refl _)))).
  exact (range_getPartitionId_is_first_below
           (CC := int_consistent true true) four_ranges
           four_ranges_wf HP four_ranges_ascending [25] eq_refl).
Defined.

Lemma keyed_consistent : ConsistentComparators KeyedPlatform.
Proof.
  constructor; cbn [makeLess makeEqual KeyedPlatform]; intros _ a b; intros;
    repeat match goal with
           | H : (_ =? _) = true |- _ => apply Z.eqb_eq in H
           | H : (_ <? _) = true |- _ => apply Z.ltb_lt in H
           end;
    first [apply Z.ltb_ge | apply Z.eqb_eq | apply Z.ltb_lt]; lia.
Qed.

Lemma keyed_equivalence : EquivalenceComparators KeyedPlatform.
Proof.
  constructor; cbn [makeEqual KeyedPlatform]; intros _ a.
  - apply Z.eqb_refl.
  - intros b E. apply Z.eqb_eq in E. apply Z.eqb_eq. lia.
Qed.

Lemma keyed_ranges_wf : range_wf keyed_ranges.
Proof.
  constructor; try reflexivity; try (split; [discriminate|reflexivity]).
  repeat constructor.
Qed.

Lemma keyed_ranges_ascending : ascending keyed_ranges.
Proof.
  intros [|[|j]] b1 b2 N1 N2; cbn in N1, N2.
  - injection N1 as <-. injection N2 as <-. reflexivity.
  - discriminate.
  - destruct j; discriminate.
Qed.

Lemma range_getPartitionId_equal_tuples_witness :
  range_wf keyed_ranges /\
  2 <= num_partitions_ (range_base keyed_ranges) /\
  ascending keyed_ranges /\
  [(15, 1)] <> [(15, 2)] /\
  size [(15, 1)] = size (partition_attribute_ids_ (range_base keyed_ranges)) /\
  size [(15, 2)] = size (partition_attribute_ids_ (range_base keyed_ranges)) /\
  (forall i,
     (i < length (partition_attribute_ids_ (range_base keyed_ranges)))%nat ->
     holds_at (equal_unchecked_comparators_ keyed_ranges)
              [(15, 1)] [(15, 2)] i = true) /\
  snd (getPartitionId (Range keyed_ranges) [(15, 1)])
  = snd (getPartitionId (Range keyed_ranges) [(15, 2)]).
Proof.
  assert (HP : 2 <= num_partitions_ (range_base keyed_ranges)) by (cbn; lia).
  assert (Ne : [(15, 1)] <> [(15, 2)]) by discriminate.
  assert (Hall : forall i,
    (i < length (partition_attribute_ids_ (range_base keyed_ranges)))%nat ->
    holds_at (equal_unchecked_comparators_ keyed_ranges)
             [(15, 1)] [(15, 2)] i = true).
  { intros [|i] Hi; [reflexivity|cbn in Hi; lia]. }
  refine (conj keyed_ranges_wf (conj HP (conj keyed_ranges_ascending
           (conj Ne (conj eq_refl (conj eq_refl (conj Hall _))))))).
  exact (range_getPartitionId_equal_tuples
           (CC := keyed_consistent) (EC := keyed_equivalence)
           keyed_ranges keyed_ranges_wf HP keyed_ranges_ascending
           [(15, 1)] [(15, 2)] eq_refl eq_refl Hall).
Defined.

(** ** Further properties of [getPartitionId] and of the constructor *)

Section Dispatch.
Context `{PF : Platform}.

(** X7.  On a hash header with at least one partition, and on a well-formed
    range header with at least two, [getPartitionId] returns, for a tuple
    with one value per partitioning attribute, a partition id in
    [0, getNumPartitions()). *)
Theorem getPartitionId_in_range
    (d : PartitionSchemeHeader) (values : PartitionValues) :
  searchable d ->
  size values = size (getPartitionAttributeIds d) ->
  exists t pid,
    getPartitionId d values = (t, Ret pid) /\
    0 <= pid < getNumPartitions d.
Proof.
  destruct d as [h|r]; unfold searchable, getPartitionAttributeIds,
    getNumPartitions, base_of.
  - intros HP Hv.
    destruct (hash_getPartitionId_in_range h values HP Hv) as (pid & E & B).
    now exists [], pid.
  - intros [WF HP] Hv. now apply range_getPartitionId_in_range.
Qed.

(** X8.  In a build with glog's [DCHECK]s, [getPartitionId] called with a
    tuple whose size is not the number of partitioning attributes fails its
    check, on either kind of header, before any boundary is read. *)
Theorem getPartitionId_size_mismatch
    (d : PartitionSchemeHeader) (values : PartitionValues) :
  DCHECK_IS_ON = true ->
  size values <> size (getPartitionAttributeIds d) ->
  getPartitionId d values = ([], Fault CheckFailed).
Proof.
  intros On Ne.
  assert (C : forall ids : PartitionAttributeIds,
    size values <> size ids ->
    DCHECK (size ids =? size values) = Fault CheckFailed).
  { intros ids N. unfold DCHECK, CHECK. rewrite On.
    replace (size ids =? size values) with false; [reflexivity|].
    symmetry. apply Z.eqb_neq. congruence. }
  destruct d as [h|r]; unfold getPartitionAttributeIds, base_of in Ne;
    cbn [getPartitionId].
  - unfold Hash_getPartitionId. now rewrite (C _ Ne).
  - unfold Range_getPartitionId, Range_getPartitionId_fuel.
    now rewrite (C _ Ne).
Qed.

(** X9.  With no partitioning attribute, [lessThan] does not enter its loop
    and answers [true] for any two empty tuples, also for a tuple and
    itself; a well-formed header with at least two partitions then sends the
    empty tuple to partition 0. *)
Theorem no_attribute_lessThan_true (r : RangePartitionSchemeHeader) :
  range_wf r ->
  partition_attribute_ids_ (range_base r) = [] ->
  2 <= num_partitions_ (range_base r) ->
  (forall lhs rhs : PartitionValues,
     size lhs = 0 -> size rhs = 0 -> lessThan r lhs rhs = Ret true) /\
  snd (getPartitionId (Range r) []) = Ret 0.
Proof.
  intros WF Hids HP.
  assert (L : forall lhs rhs : PartitionValues,
    size lhs = 0 -> size rhs = 0 -> lessThan r lhs rhs = Ret true).
  { intros lhs rhs Hl Hr.
    apply lessThan_no_attribute; rewrite Hids; auto. }
  split; [exact L|].
  assert (Hv : size (@nil TypedValue)
               = size (partition_attribute_ids_ (range_base r)))
    by now rewrite Hids.
  destruct (range_getPartitionId_search r WF HP [] Hv)
    as (t & pid & E & _ & _ & Lo & _).
  cbn [getPartitionId]. rewrite E. cbn [snd]. f_equal.
  destruct Lo as [Z0|(b & Eb & Lb)]; [exact Z0|].
  pose proof (boundary_size r WF _ _ Eb) as Sb. rewrite Hids in Sb.
  rewrite (L [] b eq_refl Sb) in Lb. discriminate.
Qed.

End Dispatch.

Lemma getPartitionId_in_range_witness :
  searchable (Range four_ranges) /\
  size [25] = size (getPartitionAttributeIds (Range four_ranges)) /\
  exists t pid,
    getPartitionId (Range four_ranges) [25] = (t, Ret pid) /\
    0 <= pid < getNumPartitions (Range four_ranges).
Proof.
  assert (S : searchable (Range four_ranges)).
  { split; [exact four_ranges_wf|cbn; lia]. }
  refine (conj S (conj eq_refl _)).
  exact (getPartitionId_in_range (PF := DebugInt) (Range four_ranges) [25]
           S eq_refl).
Defined.

Lemma getPartitionId_size_mismatch_witness :
  @DCHECK_IS_ON DebugInt = true /\
  size [1; 2] <> size (getPartitionAttributeIds (Range four_ranges)) /\
  getPartitionId (Range four_ranges) [1; 2] = ([], Fault CheckFailed).
Proof.
  assert (Ne : size [1; 2]
               <> size (getPartitionAttributeIds (Range four_ranges)))
    by discriminate.
  refine (conj eq_refl (conj Ne _)).
  exact (getPartitionId_size_mismatch (PF := DebugInt) (Range four_ranges)
           [1; 2] eq_refl Ne).
Defined.

Lemma no_attribute_range_wf : range_wf no_attribute_range.
Proof.
  constructor; try reflexivity; try (split; [discriminate|reflexivity]).
  repeat constructor.
Qed.

Lemma no_attribute_lessThan_true_witness :
  range_wf no_attribute_range /\
  partition_attribute_ids_ (range_base no_attribute_range) = [] /\
  2 <= num_partitions_ (range_base no_attribute_range) /\
  lessThan no_attribute_range [] [] = Ret true /\
  snd (getPartitionId (Range no_attribute_range) []) = Ret 0.
Proof.
  assert (HP : 2 <= num_partitions_ (range_base no_attribute_range))
    by (cbn; lia).
  destruct (no_attribute_lessThan_true (PF := DebugInt) no_attribute_range
              no_attribute_range_wf eq_refl HP) as [L G].
  exact (conj no_attribute_range_wf (conj eq_refl (conj HP
          (conj (L [] [] eq_refl eq_refl) G)))).
Defined.

Section Construction.
Context `{PF : Platform}.
Variable num_partitions : Z.
Variable attributes : PartitionAttributeIds.
Variable partition_attribute_types : list TypeRef.
Variable partition_ranges : list PartitionValues.

Let this : RangePartitionSchemeHeader :=
  mkRange (mkBase kRange num_partitions attributes)
          partition_attribute_types partition_ranges
          (map makeLess partition_attribute_types)
          (map makeEqual partition_attribute_types).

(** Whatever the build, the constructor returns nothing else than the
    object made of its arguments. *)
Lemma newRange_returns_this (r : RangePartitionSchemeHeader) :
  newRangePartitionSchemeHeader num_partitions attributes
    partition_attribute_types partition_ranges = Ret r ->
  r = this.
Proof.
  unfold newRangePartitionSchemeHeader.
  destruct (DCHECK (size attributes =? size partition_attribute_types));
    [|discriminate].
  destruct (DCHECK (SizeT.sub num_partitions 1 =? size partition_ranges));
    [|discriminate].
  cbn [rbind]. destruct QUICKSTEP_DEBUG.
  - destruct (checkPartitionRangeBoundaries _); [|discriminate].
    cbn [rbind]. now intros [= <-].
  - now intros [= <-].
Qed.


(** X11.  A header that the constructor of a debug build returns, with
    glog's [DCHECK]s and [QUICKSTEP_DEBUG], for at least two partitions
    holds its arguments, has ascending boundaries, and gives every tuple
    with one value per attribute a partition id in [0, num_partitions),
    reading boundaries only at positions [0 .. num_partitions - 2]. *)
Theorem validated_header_partitions
    (r : RangePartitionSchemeHeader) (values : PartitionValues) :
  QUICKSTEP_DEBUG = true -> DCHECK_IS_ON = true ->
  SizeT.fits num_partitions -> SizeT.fits (size attributes) ->
  2 <= num_partitions ->
  newRangePartitionSchemeHeader num_partitions attributes
    partition_attribute_types partition_ranges = Ret r ->
  size values = size attributes ->
  getNumPartitions (Range r) = num_partitions /\
  getPartitionAttributeIds (Range r) = attributes /\
  getPartitionRangeBoundaries r = partition_ranges /\
  ascending r /\
  exists t pid,
    getPartitionId (Range r) values = (t, Ret pid) /\
    0 <= pid < num_partitions /\
    Forall (fun i => 0 <= i <= num_partitions - 2) t.
Proof.
  intros D On FP Fk HP E Hv.
  destruct (validated_construction num_partitions attributes
              partition_attribute_types partition_ranges r D On FP Fk E)
    as [WF ASC].
  apply newRange_returns_this in E. subst r.
  split; [reflexivity|]. split; [reflexivity|]. split; [reflexivity|].
  split; [exact ASC|].
  destruct (range_getPartitionId_search this WF HP values Hv)
    as (t & pid & G & Ft & Hr & _).
  exists t, pid. cbn [getPartitionId]. split; [exact G|].
  cbn in Hr. split; [lia|exact Ft].
Qed.

End Construction.


Lemma validated_header_partitions_witness :
  @QUICKSTEP_DEBUG DebugInt = true /\ @DCHECK_IS_ON DebugInt = true /\
  SizeT.fits 4 /\ SizeT.fits (size [0]) /\ 2 <= 4 /\
  newRangePartitionSchemeHeader (PF := DebugInt) 4 [0] [tt]
    [[10]; [20]; [30]] = Ret four_ranges /\
  size [25] = size [0] /\
  exists t pid,
    getPartitionId (Range four_ranges) [25] = (t, Ret pid) /\
    0 <= pid < 4 /\
    Forall (fun i => 0 <= i <= 4 - 2) t.
Proof.
  assert (F4 : SizeT.fits 4) by (split; [lia|reflexivity]).
  assert (F1 : SizeT.fits (size [0])) by (split; [cbn; lia|reflexivity]).
  assert (HP : 2 <= 4) by lia.
  refine (conj eq_refl (conj eq_refl (conj F4 (conj F1 (conj HP
           (conj eq_refl (conj eq_refl _))))))).
  exact (proj2 (proj2 (proj2 (proj2
           (validated_header_partitions (PF := DebugInt) 4 [0] [tt]
              [[10]; [20]; [30]] four_ranges [25]
              eq_refl eq_refl F4 F1 HP eq_refl eq_refl))))).
Defined.
